(** * Expression nodes and the postorder visitor of [expressions.py]

    A shallow embedding of the Python module [expressions/expressions.py]:
    the classes [Expression], [Operator], [Terminal], [Number], [Symbol],
    [Add], [Sub], [Mul], [Div], [Pow] and the function [postvisitor].

    Python objects live in a store (an arena indexed by allocation order),
    so that node identity, sharing and the identity-keyed dictionary of
    the visitor are explicit.  Exceptions are results of an error type. *)

From Stdlib Require Import ZArith QArith String Ascii List Lia DecimalString.
From Stdlib Require Import Floats.SpecFloat.
From Stdlib Require Qcanon.
From stdpp Require Import base option list gmap strings.

Local Open Scope string_scope.
Local Open Scope list_scope.

(** ** Values *)

(** An address identifies one object: two objects built by two calls are
    distinct even when they are structurally equal. *)
Definition addr := nat.

(** The built-in scalars that reach the module: [None], [bool], [int],
    [float] (IEEE 754 values) and [str]. *)
Inductive scalar :=
| SNone
| SBool (b : bool)
| SInt (z : Z)
| SFloat (f : spec_float)
| SStr (s : string).

#[warnings="-register-all"]
Inductive value :=
| VScalar (s : scalar)
| VTuple (items : list value)
| VRef (a : addr).

Definition VInt (z : Z) : value := VScalar (SInt z).
Definition VStr (s : string) : value := VScalar (SStr s).

(** Built-in types, as far as [isinstance] needs them.  [T_Expression]
    stands for the class of an object of the store: every class of the
    module derives from [Expression]. *)
Inductive pytype :=
| T_object | T_NoneType | T_int | T_bool | T_float | T_str | T_tuple
| T_Expression.

#[global] Instance pytype_eq_dec : EqDecision pytype.
Proof. solve_decision. Defined.

Definition type_of (v : value) : pytype :=
  match v with
  | VScalar SNone => T_NoneType
  | VScalar (SBool _) => T_bool
  | VScalar (SInt _) => T_int
  | VScalar (SFloat _) => T_float
  | VScalar (SStr _) => T_str
  | VTuple _ => T_tuple
  | VRef _ => T_Expression
  end.

(** Method resolution order: [bool] is a subclass of [int]. *)
Definition mro (t : pytype) : list pytype :=
  match t with
  | T_object => [T_object]
  | T_bool => [T_bool; T_int; T_object]
  | _ => [t; T_object]
  end.

Definition issubclass (t cls : pytype) : bool := bool_decide (cls ∈ mro t).

(** [isinstance(v, (c1, ..., cn))] *)
Definition isinstance (v : value) (classes : list pytype) : bool :=
  existsb (issubclass (type_of v)) classes.

(** ** Exceptions and results *)

(** Exceptions are identified by their class; messages are not modelled. *)
Inductive exn :=
| TypeError | ValueError | AttributeError | KeyError
| ZeroDivisionError | RecursionError
| OtherError (name : string).

#[global] Instance exn_eq_dec : EqDecision exn.
Proof. solve_decision. Defined.

Inductive result (A : Type) :=
| Ok (a : A)
| Error (e : exn).
Arguments Ok {A} a.
Arguments Error {A} e.

Definition result_bind {A B} (r : result A) (k : A -> result B) : result B :=
  match r with
  | Ok a => k a
  | Error e => Error e
  end.

Notation "'try' x <- r ; k" := (result_bind r (fun x => k))
  (at level 10, x name, r at level 100, k at level 200,
   format "'[v' 'try'  x  <-  r ; '/' k ']'").

(** ** Classes and the object store *)

(** The concrete classes.  The bases [Expression], [Operator] and
    [Terminal] are never instantiated by the module; their attributes and
    methods are inherited by these seven. *)
Inductive klass := Number | Symbol | Add | Sub | Mul | Div | Pow.

#[global] Instance klass_eq_dec : EqDecision klass.
Proof. solve_decision. Defined.

Definition is_terminal (k : klass) : bool :=
  match k with
  | Number | Symbol => true
  | _ => false
  end.

(** The class attribute [precedence]: an [int] for the operators,
    [float('inf')] for [Terminal]. *)
Inductive prec :=
| Finite (n : Z)
| Infinite.

Definition precedence (k : klass) : prec :=
  match k with
  | Number | Symbol => Infinite
  | Add | Sub => Finite 1
  | Mul | Div => Finite 2
  | Pow => Finite 3
  end.

(** [p < q] on precedences: nothing is above [float('inf')], and
    [inf < inf] is false. *)
Definition prec_lt (p q : prec) : bool :=
  match p, q with
  | Finite a, Finite b => (a <? b)%Z
  | Finite _, Infinite => true
  | Infinite, _ => false
  end.

(** The class attribute [symbol]; [Terminal] has none. *)
Definition symbol (k : klass) : option string :=
  match k with
  | Add => Some "+"
  | Sub => Some "-"
  | Mul => Some "*"
  | Div => Some "/"
  | Pow => Some "^"
  | Number | Symbol => None
  end.

(** An instance: its class, the attribute [operands] set by
    [Expression.__init__], and the attribute [value] set by
    [Terminal.__init__] (absent on operators). *)
Record object := Object {
  ob_type : klass;
  ob_operands : list value;
  ob_value : option scalar
}.

Abbreviation heap := (list object).

(** Computations that allocate: the store is threaded, and an exception
    leaves the store as it was when it was raised. *)
Inductive outcome (A : Type) :=
| Return (a : A) (h : heap)
| Raise (e : exn) (h : heap).
Arguments Return {A} a h.
Arguments Raise {A} e h.

Definition M (A : Type) := heap -> outcome A.

Definition ret {A} (a : A) : M A := fun h => Return a h.

Definition bind {A B} (m : M A) (k : A -> M B) : M B :=
  fun h =>
    match m h with
    | Return a h' => k a h'
    | Raise e h' => Raise e h'
    end.

Notation "'let*' x := m 'in' k" := (bind m (fun x => k))
  (at level 10, x name, m at level 100, k at level 200,
   format "'[v' 'let*'  x  :=  m  'in' '/' k ']'").

(** [tuple(x)]: tuples and strings are the iterables of the model; a
    string iterates over its characters. *)
Fixpoint chars (s : string) : list value :=
  match s with
  | EmptyString => []
  | String c s' => VStr (String c EmptyString) :: chars s'
  end.

Definition tuple (x : value) : result (list value) :=
  match x with
  | VTuple items => Ok items
  | VScalar (SStr s) => Ok (chars s)
  | _ => Error TypeError
  end.

Module Expression.

(** [def __init__(self, operands=()): self.operands = tuple(operands)]
    The method takes at most ONE argument besides [self], an iterable
    of operands; a call with more positional arguments is a
    [TypeError].  The result is the value given to [self.operands]. *)
Definition __init__ (args : list value) : result (list value) :=
  match args with
  | [] => tuple (VTuple [])
  | [operands] => tuple operands
  | _ => Error TypeError
  end.

End Expression.

(** The interpreter's limit on the conversion of an [int] to decimal text,
    [sys.int_info.default_max_str_digits]. *)
Definition int_max_str_digits : nat := 4300.

(** The number of decimal digits of an [int], without its sign. *)
Definition int_digits (z : Z) : nat :=
  match Z.to_int z with
  | Decimal.Pos d | Decimal.Neg d => Decimal.nb_digits d
  end.

(** [str] of an [int]: its decimal text, or [ValueError] when it has more
    digits than the limit. *)
Definition int_str (z : Z) : result string :=
  if (int_max_str_digits <? int_digits z)%nat then Error ValueError
  else Ok (NilZero.string_of_int (Z.to_int z)).

(** [str] of a built-in scalar.  The decimal form of a [float] is left to
    [float_repr]: the algorithm of the interpreter is not part of the
    module. *)
Definition scalar_str (float_repr : spec_float -> string) (s : scalar)
  : result string :=
  match s with
  | SNone => Ok "None"
  | SBool true => Ok "True"
  | SBool false => Ok "False"
  | SInt z => int_str z
  | SFloat f => Ok (float_repr f)
  | SStr s => Ok s
  end.

(** [repr] of a built-in scalar: as [str], but for a string, which is
    quoted and escaped by [str_repr]; the quoting rules of the interpreter
    are not part of the module. *)
Definition scalar_repr (float_repr : spec_float -> string)
  (str_repr : string -> string) (s : scalar) : result string :=
  match s with
  | SStr t => Ok (str_repr t)
  | _ => scalar_str float_repr s
  end.

Module Terminal.

(** [def __init__(self, value):]
    [super().__init__(operands=()); self.value = value] *)
Definition __init__ (val : scalar) : result (list value * option scalar) :=
  try operands <- Expression.__init__ [VTuple []];
  Ok (operands, Some val).

(** [def __str__(self): return str(self.value)] *)
Definition __str__ (float_repr : spec_float -> string) (self : object)
  : result string :=
  match ob_value self with
  | Some v => scalar_str float_repr v
  | None => Error AttributeError
  end.

(** [def __repr__(self): return repr(self.value)] *)
Definition __repr__ (float_repr : spec_float -> string)
  (str_repr : string -> string) (self : object) : result string :=
  match ob_value self with
  | Some v => scalar_repr float_repr str_repr v
  | None => Error AttributeError
  end.

End Terminal.

Definition as_scalar (v : value) : option scalar :=
  match v with
  | VScalar s => Some s
  | _ => None
  end.

Module Number.

(** [if not isinstance(value, (int, float)): raise ValueError(...)]
    [super().__init__(value)] *)
Definition __init__ (args : list value) : result (list value * option scalar) :=
  match args with
  | [val] =>
      if negb (isinstance val [T_int; T_float]) then Error ValueError
      else match as_scalar val with
           | Some s => Terminal.__init__ s
           | None => Error ValueError
           end
  | _ => Error TypeError
  end.

End Number.

Module Symbol.

(** [if not isinstance(value, str): raise ValueError(...)]
    [super().__init__(value)] *)
Definition __init__ (args : list value) : result (list value * option scalar) :=
  match args with
  | [val] =>
      if negb (isinstance val [T_str]) then Error ValueError
      else match as_scalar val with
           | Some s => Terminal.__init__ s
           | None => Error ValueError
           end
  | _ => Error TypeError
  end.

End Symbol.

(** The [__init__] found on class [k]: [Number] and [Symbol] define their
    own; the operators inherit [Expression.__init__] through [Operator]. *)
Definition init (k : klass) (args : list value)
  : result (list value * option scalar) :=
  match k with
  | Number => Number.__init__ args
  | Symbol => Symbol.__init__ args
  | Add | Sub | Mul | Div | Pow =>
      try operands <- Expression.__init__ args;
      Ok (operands, None)
  end.

(** Calling a class with the positional arguments [args]: the instance
    is initialised by [init] and, when that returns, it is the newest
    object of the store.  When [init] raises, no object is left. *)
Definition call (k : klass) (args : list value) : M value :=
  fun h =>
    match init k args with
    | Ok (operands, val) =>
        Return (VRef (length h)) (h ++ [Object k operands val])
    | Error e => Raise e h
    end.

(** [other if isinstance(other, Expression) else Number(other)] *)
Definition coerce (other : value) : M value :=
  if isinstance other [T_Expression] then ret other
  else call Number [other].

(** The arithmetic methods of [Expression], after the classes they call.
    Each method passes the two operands to the operator class as two
    positional arguments. *)
Module Arithmetic.

(** [return Add(self, other if isinstance(other, Expression) else Number(other))] *)
Definition __add__ (self other : value) : M value :=
  let* rhs := coerce other in call Add [self; rhs].

(** [return self + other] *)
Definition __radd__ (self other : value) : M value :=
  __add__ self other.

(** [return Sub(self, other if isinstance(other, Expression) else Number(other))] *)
Definition __sub__ (self other : value) : M value :=
  let* rhs := coerce other in call Sub [self; rhs].

(** [return Sub(Number(other), self)] *)
Definition __rsub__ (self other : value) : M value :=
  let* lhs := call Number [other] in call Sub [lhs; self].

(** [return Mul(self, other if isinstance(other, Expression) else Number(other))] *)
Definition __mul__ (self other : value) : M value :=
  let* rhs := coerce other in call Mul [self; rhs].

(** [return self * other] *)
Definition __rmul__ (self other : value) : M value :=
  __mul__ self other.

(** [return Div(self, other if isinstance(other, Expression) else Number(other))] *)
Definition __truediv__ (self other : value) : M value :=
  let* rhs := coerce other in call Div [self; rhs].

(** [return Div(Number(other), self)] *)
Definition __rtruediv__ (self other : value) : M value :=
  let* lhs := call Number [other] in call Div [lhs; self].

(** [return Pow(self, other if isinstance(other, Expression) else Number(other))] *)
Definition __pow__ (self other : value) : M value :=
  let* rhs := coerce other in call Pow [self; rhs].

(** [return Pow(Number(other), self)] *)
Definition __rpow__ (self other : value) : M value :=
  let* lhs := call Number [other] in call Pow [lhs; self].

End Arithmetic.

(** ** Rendering: [__str__] *)

(** Attribute access on a value that should be a node: the object a
    reference designates.  A value that is no node has neither
    [precedence] nor [operands]. *)
Definition node_of (h : heap) (v : value) : result (addr * object) :=
  match v with
  | VRef a =>
      match h !! a with
      | Some o => Ok (a, o)
      | None => Error AttributeError
      end
  | _ => Error AttributeError
  end.

Definition parenthesise (s : string) : string := "(" +:+ s +:+ ")".

(** [type(self).__name__] *)
Definition klass_name (k : klass) : string :=
  match k with
  | Number => "Number"
  | Symbol => "Symbol"
  | Add => "Add"
  | Sub => "Sub"
  | Mul => "Mul"
  | Div => "Div"
  | Pow => "Pow"
  end.

Module Operator.

(** [def __repr__(self): return type(self).__name__ + repr(self.operands)]
    [repr_] is [repr] on values. *)
Definition __repr__ (repr_ : value -> result string) (self : object)
  : result string :=
  try operands <- repr_ (VTuple (ob_operands self));
  Ok (klass_name (ob_type self) +:+ operands).

(** [left, right = self.operands]
    [left_str = f"({left})" if left.precedence < self.precedence else str(left)]
    [right_str = f"({right})" if right.precedence < self.precedence else str(right)]
    [return f"{left_str} {self.symbol} {right_str}"]
    [str_] is [str] on the operands. *)
Definition __str__ (str_ : addr -> result string) (h : heap) (self : object)
  : result string :=
  match ob_operands self with
  | [left_; right_] =>
      try l <- node_of h left_;
      try left_str <-
        (if prec_lt (precedence (ob_type l.2)) (precedence (ob_type self))
         then try s <- str_ l.1; Ok (parenthesise s)
         else str_ l.1);
      try r <- node_of h right_;
      try right_str <-
        (if prec_lt (precedence (ob_type r.2)) (precedence (ob_type self))
         then try s <- str_ r.1; Ok (parenthesise s)
         else str_ r.1);
      match symbol (ob_type self) with
      | Some sym => Ok (left_str +:+ " " +:+ sym +:+ " " +:+ right_str)
      | None => Error AttributeError
      end
  | _ => Error ValueError
  end.

End Operator.

(** [str(node)], dispatched on the class of the node.  [depth] is the
    number of nested calls the interpreter still allows: the methods
    recurse on the call stack. *)
Fixpoint str (float_repr : spec_float -> string) (depth : nat) (h : heap)
  (a : addr) : result string :=
  match depth with
  | 0 => Error RecursionError
  | S d =>
      match h !! a with
      | None => Error AttributeError
      | Some self =>
          if is_terminal (ob_type self)
          then Terminal.__str__ float_repr self
          else Operator.__str__ (str float_repr d h) h self
      end
  end.

(** [", ".join(items)] *)
Fixpoint join_comma (items : list string) : string :=
  match items with
  | [] => ""
  | [x] => x
  | x :: rest => x +:+ ", " +:+ join_comma rest
  end.

(** The text of a tuple from the texts of its items: [()], [(x,)] and
    [(x, y, ...)]. *)
Definition tuple_repr (items : list string) : string :=
  match items with
  | [] => "()"
  | [x] => "(" +:+ x +:+ ",)"
  | _ => "(" +:+ join_comma items +:+ ")"
  end.

Fixpoint map_result {A B} (f : A -> result B) (l : list A) : result (list B) :=
  match l with
  | [] => Ok []
  | x :: l' =>
      try y <- f x;
      try ys <- map_result f l';
      Ok (y :: ys)
  end.

(** [repr(v)]: a scalar, a tuple of values, or a node, dispatched on its
    class.  As for [str], [depth] is the number of nested calls still
    allowed. *)
Fixpoint repr (float_repr : spec_float -> string) (str_repr : string -> string)
  (depth : nat) (h : heap) (v : value) : result string :=
  match depth with
  | 0 => Error RecursionError
  | S d =>
      match v with
      | VScalar s => scalar_repr float_repr str_repr s
      | VTuple items =>
          try texts <- map_result (repr float_repr str_repr d h) items;
          Ok (tuple_repr texts)
      | VRef a =>
          match h !! a with
          | None => Error AttributeError
          | Some self =>
              if is_terminal (ob_type self)
              then Terminal.__repr__ float_repr str_repr self
              else Operator.__repr__ (repr float_repr str_repr d h) self
          end
      end
  end.

(** ** The visitor *)

Section Visitor.

(** Results of the combining function, its keyword arguments, and the
    state of the caller that the function may read and change. *)
Context {R K W : Type}.

Inductive fn_result :=
| FnReturn (r : R) (w : W)
| FnRaise (e : exn) (w : W).

(** [fn(node, *o, **kwargs)] *)
Definition combiner := addr -> list R -> K -> W -> fn_result.

(** The local variables of [postvisitor].  [stack] is kept top first:
    [stack.pop()] takes the head and [stack.append(x)] conses. *)
Record vstate := VState {
  visited : gmap addr R;
  stack : list value;
  result_stack : list R;
  world : W
}.

(** [c in visited]: the keys are nodes, compared by identity. *)
Definition in_visited (vis : gmap addr R) (c : value) : bool :=
  match c with
  | VRef a => bool_decide (is_Some (vis !! a))
  | _ => false
  end.

(** [visited[c]] *)
Definition getitem (vis : gmap addr R) (c : value) : result R :=
  match c with
  | VRef a =>
      match vis !! a with
      | Some r => Ok r
      | None => Error KeyError
      end
  | _ => Error KeyError
  end.

(** [(visited[c] for c in node.operands)] *)
Fixpoint getitems (vis : gmap addr R) (cs : list value) : result (list R) :=
  match cs with
  | [] => Ok []
  | c :: cs' =>
      try r <- getitem vis c;
      try rs <- getitems vis cs';
      Ok (r :: rs)
  end.

(** [for child in children: if child not in visited: stack.append(child)] *)
Definition push_unvisited (vis : gmap addr R) (children stk : list value)
  : list value :=
  fold_left (fun stk child => if in_visited vis child then stk else child :: stk)
            children stk.

Inductive step :=
| Next (st : vstate)
| Abort (e : exn) (w : W).

Variable h : heap.
Variable fn : combiner.
Variable kwargs : K.

(** One iteration of the [while] loop, after [node = stack.pop()] left
    [rest] on the stack. *)
Definition iteration (st : vstate) (node : value) (rest : list value) : step :=
  if in_visited (visited st) node
  then Next (VState (visited st) rest (result_stack st) (world st))
  else
    match node_of h node with
    | Error e => Abort e (world st)
    | Ok (a, o) =>
        if forallb (in_visited (visited st)) (ob_operands o)
        then
          match getitems (visited st) (ob_operands o) with
          | Error e => Abort e (world st)
          | Ok args =>
              match fn a args kwargs (world st) with
              | FnReturn r w' =>
                  Next (VState (<[a := r]> (visited st)) rest
                               (result_stack st ++ [r]) w')
              | FnRaise e w' => Abort e w'
              end
          end
        else
          Next (VState (visited st)
                       (push_unvisited (visited st) (rev (ob_operands o))
                                       (node :: rest))
                       (result_stack st) (world st))
    end.

Inductive run :=
| Finished (st : vstate)
| Aborted (e : exn) (w : W)
| OutOfFuel (st : vstate).

(** [while stack: ...]; [fuel] bounds the number of iterations. *)
Fixpoint while_loop (fuel : nat) (st : vstate) : run :=
  match stack st with
  | [] => Finished st
  | node :: rest =>
      match fuel with
      | 0 => OutOfFuel st
      | S fuel' =>
          match iteration st node rest with
          | Next st' => while_loop fuel' st'
          | Abort e w => Aborted e w
          end
      end
  end.

Inductive visit :=
| Returned (r : R) (w : W)
| Raised (e : exn) (w : W)
| Running (st : vstate).

(** [visited = {}; stack = [expr]; result_stack = []; while ...;
    return visited[expr]] *)
Definition postvisitor (fuel : nat) (expr : value) (w : W) : visit :=
  match while_loop fuel (VState ∅ [expr] [] w) with
  | Finished st =>
      match getitem (visited st) expr with
      | Ok r => Returned r (world st)
      | Error e => Raised e (world st)
      end
  | Aborted e w' => Raised e w'
  | OutOfFuel st => Running st
  end.

End Visitor.

Arguments fn_result : clear implicits.
Arguments combiner : clear implicits.
Arguments vstate : clear implicits.
Arguments step : clear implicits.
Arguments run : clear implicits.
Arguments visit : clear implicits.

(** ** Instrumentation: the calls of a traversal *)

(** One invocation of the combining function: the node, the positional
    results it was given, the keyword arguments and what came back. *)
Record invocation (R K : Type) := Invocation {
  inv_node : addr;
  inv_args : list R;
  inv_kwargs : K;
  inv_result : result R
}.
Arguments Invocation {R K} _ _ _ _.
Arguments inv_node {R K} _.
Arguments inv_args {R K} _.
Arguments inv_kwargs {R K} _.
Arguments inv_result {R K} _.

(** A combining function that also appends each of its invocations to a
    log kept in the caller's state (newest first). *)
Definition traced {R K W} (fn : combiner R K W)
  : combiner R K (W * list (invocation R K)) :=
  fun a args kw wl =>
    match fn a args kw wl.1 with
    | FnReturn r w' => FnReturn r (w', Invocation a args kw (Ok r) :: wl.2)
    | FnRaise e w' => FnRaise e (w', Invocation a args kw (Error e) :: wl.2)
    end.

(** A combining function that also increments an external counter, one
    per node, at each invocation. *)
Definition counted {R K W} (fn : combiner R K W)
  : combiner R K (W * gmap addr nat) :=
  fun a args kw wc =>
    let cnt := <[a := S (default 0 (wc.2 !! a))]> wc.2 in
    match fn a args kw wc.1 with
    | FnReturn r w' => FnReturn r (w', cnt)
    | FnRaise e w' => FnRaise e (w', cnt)
    end.

(** A combining function without effects. *)
Definition pure_fn {R K W} (f : addr -> list R -> K -> R) : combiner R K W :=
  fun a args kw w => FnReturn (f a args kw) w.

(** The state the caller sees when a traversal stops. *)
Definition visit_world {R W} (v : visit R W) : W :=
  match v with
  | Returned _ w => w
  | Raised _ w => w
  | Running st => world st
  end.

Definition erase_visit {R W L} (v : visit R (W * L)) : visit R W :=
  match v with
  | Returned r wl => Returned r wl.1
  | Raised e wl => Raised e wl.1
  | Running st =>
      Running (VState (visited st) (stack st) (result_stack st) (world st).1)
  end.

(** The results recorded by the calls of a log that returned. *)
Fixpoint results {R K} (log : list (invocation R K)) : gmap addr R :=
  match log with
  | [] => ∅
  | c :: l =>
      match inv_result c with
      | Ok r => <[inv_node c := r]> (results l)
      | Error _ => results l
      end
  end.

Definition returned {A} (r : result A) : Prop :=
  match r with
  | Ok _ => True
  | Error _ => False
  end.

(** A log (newest first) in which every call is the first one on its node,
    comes after the calls on the operands of the node and none that
    raised, has the keyword arguments [kw], and receives the recorded
    results of the operands in the order of the operand tuple. *)
Fixpoint well_logged {R K} (h : heap) (kw : K) (log : list (invocation R K)) : Prop :=
  match log with
  | [] => True
  | c :: l =>
      well_logged h kw l
      ∧ Forall (fun c' => returned (inv_result c')) l
      ∧ results l !! inv_node c = None
      ∧ inv_kwargs c = kw
      ∧ ∃ o, h !! inv_node c = Some o
             ∧ getitems (results l) (ob_operands o) = Ok (inv_args c)
  end.

(** ** Recursive postorder fold: the reference for the visitor *)

Fixpoint mapM {A B} (f : A -> option B) (l : list A) : option (list B) :=
  match l with
  | [] => Some []
  | x :: l' =>
      match f x, mapM f l' with
      | Some y, Some ys => Some (y :: ys)
      | _, _ => None
      end
  end.

(** [fold f kw h n v]: the value [f] produces for node [v] from the values
    it produces for the operands, by recursion of depth at most [n]. *)
Fixpoint fold {R K} (f : addr -> list R -> K -> R) (kw : K) (h : heap)
  (n : nat) (v : value) : option R :=
  match n with
  | 0 => None
  | S n' =>
      match v with
      | VRef a =>
          match h !! a with
          | Some o =>
              match mapM (fold f kw h n') (ob_operands o) with
              | Some args => Some (f a args kw)
              | None => None
              end
          | None => None
          end
      | _ => None
      end
  end.

(** A store is ranked by [rank] when every operand of every object is a
    node of the store of smaller rank; a store that has a ranking is
    acyclic. *)
Definition ranked (rank : addr -> nat) (h : heap) : Prop :=
  ∀ a o, h !! a = Some o →
    Forall (fun v => ∃ c, v = VRef c ∧ is_Some (h !! c) ∧ rank c < rank a)
           (ob_operands o).

Definition acyclic (h : heap) : Prop := ∃ rank, ranked rank h.

(** The layout the constructors produce: operands are allocated before
    the object that holds them. *)
Definition earlier (a : addr) (v : value) : bool :=
  match v with
  | VRef c => bool_decide (c < a)
  | _ => false
  end.

Fixpoint ordered_from (a : addr) (objs : list object) : bool :=
  match objs with
  | [] => true
  | o :: objs' => forallb (earlier a) (ob_operands o) && ordered_from (S a) objs'
  end.

Definition ordered (h : heap) : bool := ordered_from 0 h.

(** ** An arithmetic combining function *)

(** The exact rational a finite [float] denotes. *)
Definition float_to_Q (f : spec_float) : option Q :=
  match f with
  | S754_zero _ => Some 0%Q
  | S754_finite s m e =>
      Some (Qred ((if s then -1 else 1) * (Zpos m # 1) * Qpower 2 e))
  | _ => None
  end.

Definition number_value (s : scalar) : result Q :=
  match s with
  | SInt z => Ok (z # 1)
  | SBool b => Ok (if b then 1 else 0)%Q
  | SFloat f =>
      match float_to_Q f with
      | Some q => Ok q
      | None => Error ValueError
      end
  | _ => Error TypeError
  end.

(** Modelled from the spec: the combining function of the testable
    properties, which is not part of [expressions.py].  It returns the
    literal value at a [Number], evaluates [Add], [Sub], [Mul], [Div] and
    [Pow] arithmetically on the results of the operands, and raises a
    lookup error at a [Symbol], which has no bound value.  Arithmetic is
    exact, on rationals in lowest terms; a power needs an integral
    exponent. *)
Definition evaluate_node (h : heap) (a : addr) (o : list Q) : result Q :=
  match h !! a with
  | None => Error AttributeError
  | Some node =>
      match ob_type node, o with
      | Number, _ =>
          match ob_value node with
          | Some s => number_value s
          | None => Error AttributeError
          end
      | Symbol, _ => Error KeyError
      | Add, [x; y] => Ok (Qred (x + y))
      | Sub, [x; y] => Ok (Qred (x - y))
      | Mul, [x; y] => Ok (Qred (x * y))
      | Div, [x; y] =>
          if Qeq_bool y 0 then Error ZeroDivisionError else Ok (Qred (x / y))
      | Pow, [x; y] =>
          if negb (Pos.eqb (Qden (Qred y)) 1) then Error ValueError
          else if Qeq_bool x 0 && (Qnum (Qred y) <? 0)%Z then Error ZeroDivisionError
          else Ok (Qred (Qpower x (Qnum (Qred y))))
      | _, _ => Error TypeError
      end
  end.

Definition evaluate {W} (h : heap) : combiner Q unit W :=
  fun a o _ w =>
    match evaluate_node h a o with
    | Ok q => FnReturn q w
    | Error e => FnRaise e w
    end.

(** ** Programs that build expressions *)

Definition run_program {A} (p : M A) : outcome A := p [].

(** [s = Number(5) + Number(1); Mul(s, s)] *)
Definition shared_square : M value :=
  let* five := call Number [VInt 5] in
  let* one := call Number [VInt 1] in
  let* s := Arithmetic.__add__ five one in
  call Mul [s; s].

(** The same graph, each operator class called with ONE argument, the
    tuple of its operands: [s = Add((Number(5), Number(1))); Mul((s, s))] *)
Definition shared_square_seq : M value :=
  let* five := call Number [VInt 5] in
  let* one := call Number [VInt 1] in
  let* s := call Add [VTuple [five; one]] in
  call Mul [VTuple [s; s]].

(** [Number(2) + Number(3) * Number(4)] *)
Definition two_plus_three_times_four : M value :=
  let* two := call Number [VInt 2] in
  let* three := call Number [VInt 3] in
  let* four := call Number [VInt 4] in
  let* product := Arithmetic.__mul__ three four in
  Arithmetic.__add__ two product.

(** [Add((Number(2), Mul((Number(3), Number(4)))))] *)
Definition two_plus_three_times_four_seq : M value :=
  let* two := call Number [VInt 2] in
  let* three := call Number [VInt 3] in
  let* four := call Number [VInt 4] in
  let* product := call Mul [VTuple [three; four]] in
  call Add [VTuple [two; product]].

(** [x = Symbol('x'); y = Symbol('y'); z = Symbol('z')] and then [build] *)
Definition with_xyz (build : value -> value -> value -> M value) : M value :=
  let* x := call Symbol [VStr "x"] in
  let* y := call Symbol [VStr "y"] in
  let* z := call Symbol [VStr "z"] in
  build x y z.

(** [(x + y) * z] *)
Definition sum_times : M value :=
  with_xyz (fun x y z => let* s := Arithmetic.__add__ x y in Arithmetic.__mul__ s z).

(** [x * y + z] *)
Definition product_plus : M value :=
  with_xyz (fun x y z => let* p := Arithmetic.__mul__ x y in Arithmetic.__add__ p z).

(** [Pow(x, Pow(y, z))] *)
Definition pow_right : M value :=
  with_xyz (fun x y z => let* p := call Pow [y; z] in call Pow [x; p]).

(** [Pow(Pow(x, y), z)] *)
Definition pow_left : M value :=
  with_xyz (fun x y z => let* p := call Pow [x; y] in call Pow [p; z]).

(** The same four graphs, each operator class called with the tuple of
    its operands. *)
Definition sum_times_seq : M value :=
  with_xyz (fun x y z =>
    let* s := call Add [VTuple [x; y]] in call Mul [VTuple [s; z]]).

Definition product_plus_seq : M value :=
  with_xyz (fun x y z =>
    let* p := call Mul [VTuple [x; y]] in call Add [VTuple [p; z]]).

Definition pow_right_seq : M value :=
  with_xyz (fun x y z =>
    let* p := call Pow [VTuple [y; z]] in call Pow [VTuple [x; p]]).

Definition pow_left_seq : M value :=
  with_xyz (fun x y z =>
    let* p := call Pow [VTuple [x; y]] in call Pow [VTuple [p; z]]).

(** A right-leaning chain of [n] nested [Add] nodes over [Number(1)]:
    [Add((Number(1), Add((Number(1), ... Number(1)))))], built from the
    innermost literal outwards. *)
Fixpoint chain (n : nat) : M value :=
  match n with
  | 0 => call Number [VInt 1]
  | S n' =>
      let* inner := chain n' in
      let* one := call Number [VInt 1] in
      call Add [VTuple [one; inner]]
  end.

(** [str(p)] and [postvisitor(p, fn, **kw)] for an expression [p] that
    builds a node: the argument is evaluated first, and when it raises,
    neither [__str__] nor the visitor is entered. *)
Definition str_of (float_repr : spec_float -> string) (depth : nat)
  (p : M value) : result string :=
  match run_program p with
  | Return (VRef a) h => str float_repr depth h a
  | Return _ _ => Error AttributeError
  | Raise e _ => Error e
  end.

Definition visit_of {R K W} (p : M value)
  (fn : heap -> combiner R K W) (kw : K) (fuel : nat) (w : W) : visit R W :=
  match run_program p with
  | Return expr h => postvisitor h (fn h) kw fuel expr w
  | Raise e _ => Raised e w
  end.

(** [s], in parentheses when [b] holds. *)
Definition wrapped (b : bool) (s : string) : string :=
  if b then parenthesise s else s.

(** The dictionary holds the fold of each of its nodes. *)
Definition folded {R K} (f : addr -> list R -> K -> R) (kw : K) (h : heap)
  (rank : addr -> nat) (V : gmap addr R) : Prop :=
  ∀ a r, V !! a = Some r → fold f kw h (S (rank a)) (VRef a) = Some r.

(** The exception [e] and the caller's state [w'] come out of a call of
    the combining function on a node that was ready, in a state that
    satisfied [Inv]. *)
Definition raising_call {R K W} (h : heap) (fn : combiner R K W) (kwargs : K)
  (Inv : gmap addr R -> W -> Prop) (e : exn) (w' : W) : Prop :=
  ∃ V w a o args,
    Inv V w ∧ h !! a = Some o ∧ V !! a = None
    ∧ getitems V (ob_operands o) = Ok args
    ∧ fn a args kwargs w = FnRaise e w'.

(** From [st] the loop, in a fixed number of iterations, either is stopped
    by an exception of the combining function, or reaches a state with
    stack [rest] whose dictionary extends that of [st], satisfies [P], and
    together with the caller's state satisfies [Inv]. *)
Definition processes {R K W} (h : heap) (fn : combiner R K W) (kwargs : K)
  (Inv : gmap addr R -> W -> Prop) (st : vstate R W) (rest : list value)
  (P : gmap addr R -> Prop) : Prop :=
  ∃ k,
    (∃ e w', raising_call h fn kwargs Inv e w'
             ∧ ∀ f, while_loop h fn kwargs (k + f) st = Aborted e w')
    ∨ (∃ V' rs' w',
         Inv V' w' ∧ visited st ⊆ V' ∧ P V'
         ∧ ∀ f, while_loop h fn kwargs (k + f) st
                = while_loop h fn kwargs f (VState V' rest rs' w')).

(** ** Erasing the log *)

Definition erase_state {R W L} (st : vstate R (W * L)) : vstate R W :=
  VState (visited st) (stack st) (result_stack st) (world st).1.

Definition erase_step {R W L} (s : step R (W * L)) : step R W :=
  match s with
  | Next st => Next (erase_state st)
  | Abort e wl => Abort e wl.1
  end.

Definition erase_run {R W L} (r : run R (W * L)) : run R W :=
  match r with
  | Finished st => Finished (erase_state st)
  | Aborted e wl => Aborted e wl.1
  | OutOfFuel st => OutOfFuel (erase_state st)
  end.

(** A state of a traversal whose combining function is traced: the log
    is well formed, none of its calls raised, and the dictionary holds
    exactly the results of the log. *)
Definition logged_state {R K W} (h : heap) (kw : K)
  (st : vstate R (W * list (invocation R K))) : Prop :=
  well_logged h kw (world st).2
  ∧ Forall (fun c => returned (inv_result c)) (world st).2
  ∧ visited st = results (world st).2.

(** The caller's state when a traversal was stopped by the exception [e]:
    either the newest call of the log raised [e], leaving the caller's
    state as it is, and no other call raised, or no call raised (the
    exception is the visitor's own). *)
Definition logged_abort {R K W} (h : heap) (fn : combiner R K W) (kw : K)
  (e : exn) (wl : W * list (invocation R K)) : Prop :=
  well_logged h kw wl.2
  ∧ ((∃ c l w0, wl.2 = c :: l ∧ inv_result c = Error e
                ∧ Forall (fun c' => returned (inv_result c')) l
                ∧ fn (inv_node c) (inv_args c) kw w0 = FnRaise e wl.1)
     ∨ Forall (fun c => returned (inv_result c)) wl.2).

(** ** Example stores and programs *)

(** The store of [(x + y) * z]. *)
Definition sum_times_heap : heap :=
  [Object Symbol [] (Some (SStr "x")); Object Symbol [] (Some (SStr "y"));
   Object Symbol [] (Some (SStr "z")); Object Add [VRef 0; VRef 1] None;
   Object Mul [VRef 3; VRef 2] None].


(** The store of [Number(2) + Number(3) * Number(4)]. *)
Definition arith_heap : heap :=
  [Object Number [] (Some (SInt 2)); Object Number [] (Some (SInt 3));
   Object Number [] (Some (SInt 4)); Object Mul [VRef 1; VRef 2] None;
   Object Add [VRef 0; VRef 3] None].

(** The number of calls a recursive traversal of a node makes. *)
Definition paths (a : addr) (o : list nat) (kw : unit) : nat := S (list_sum o).

(** The store of [Symbol('x')] plus one. *)
Definition symbol_heap : heap :=
  [Object Symbol [] (Some (SStr "x")); Object Number [] (Some (SInt 1));
   Object Add [VRef 0; VRef 1] None].

(** [Mul((Add((Number(5), Number(1))), Add((Number(5), Number(1)))))]:
    two operands that are equal in structure and distinct objects. *)
Definition distinct_square_seq : M value :=
  let* five := call Number [VInt 5] in
  let* one := call Number [VInt 1] in
  let* s := call Add [VTuple [five; one]] in
  let* five' := call Number [VInt 5] in
  let* one' := call Number [VInt 1] in
  let* s' := call Add [VTuple [five'; one']] in
  call Mul [VTuple [s; s']].

(** [Add((Symbol('x'), Number(1)))] *)
Definition symbol_plus_one_seq : M value :=
  let* x := call Symbol [VStr "x"] in
  let* one := call Number [VInt 1] in
  call Add [VTuple [x; one]].

Definition one_object : object := Object Number [] (Some (SInt 1)).

(** The store [chain n] builds: the innermost literal at address 0, then,
    for each [Add] node, its left literal and the node itself. *)
Fixpoint chain_heap (n : nat) : heap :=
  match n with
  | 0 => [one_object]
  | S n' =>
      chain_heap n'
      ++ [one_object; Object Add [VRef (S (2 * n')); VRef (2 * n')] None]
  end.

(** The value of the node at an address of [chain_heap n]: a literal at
    0 and at the odd addresses, the sum of [i + 1] ones at address
    [2 * i]. *)
Definition chain_value (a : addr) : Q :=
  if Nat.even a then (Z.of_nat (Nat.div2 a) + 1) # 1 else 1.

(** The text of the chain with [i] additions: ["1 + 1 + ... + 1"]. *)
Fixpoint chain_str (i : nat) : string :=
  match i with
  | 0 => "1"
  | S i' => "1 + " +:+ chain_str i'
  end.

(** ** Shapes of stores and traversals *)

(** In a plain store every terminal has its payload and every operator
    has exactly two operands. *)
Definition plain (h : heap) : Prop :=
  ∀ a o, h !! a = Some o →
    if is_terminal (ob_type o) then is_Some (ob_value o)
    else length (ob_operands o) = 2.

(** In a printable store the [int] payloads are within the interpreter's
    limit on decimal text. *)
Definition printable (h : heap) : Prop :=
  ∀ a o z, h !! a = Some o → ob_value o = Some (SInt z) →
    (int_digits z ≤ int_max_str_digits)%nat.

(** The values a traversal from [root] can meet: the root, and the
    operands of the nodes it can meet. *)
Inductive reachable (h : heap) (root : value) : value -> Prop :=
| reach_root : reachable h root root
| reach_operand (a : addr) (o : object) (c : value) :
    reachable h root (VRef a) → h !! a = Some o → c ∈ ob_operands o →
    reachable h root c.

(** The memoised recursive postorder: [seen] lists the nodes visited so
    far, newest first; a node that is not in it is added after its
    operands, taken from left to right. *)
Fixpoint postorder (n : nat) (h : heap) (seen : list addr) (v : value)
  : list addr :=
  match n with
  | 0 => seen
  | S n' =>
      match v with
      | VRef a =>
          if bool_decide (a ∈ seen) then seen
          else match h !! a with
               | Some o => a :: fold_left (postorder n' h) (ob_operands o) seen
               | None => seen
               end
      | _ => seen
      end
  end.

(** The dictionary holds exactly the nodes of [seen]. *)
Definition synced {R} (V : gmap addr R) (seen : list addr) : Prop :=
  ∀ a, is_Some (V !! a) ↔ a ∈ seen.

(** No value of the set [C] is in the dictionary. *)
Definition unvisited {R} (C : value -> Prop) (V : gmap addr R) : Prop :=
  ∀ v, C v → in_visited V v = false.

(** No call of the log is on a node of the set [C]. *)
Definition clear_log {R K} (C : value -> Prop) (log : list (invocation R K))
  : Prop :=
  Forall (fun c => ¬ C (VRef (inv_node c))) log.

(** The number of operands of the node at [a]. *)
Definition arity (h : heap) (a : addr) : nat :=
  match h !! a with
  | Some o => length (ob_operands o)
  | None => 0
  end.

(** The operands of the nodes of a log, counted with multiplicity. *)
Definition operand_count {R K} (h : heap) (log : list (invocation R K)) : nat :=
  list_sum ((fun c => arity h (inv_node c)) <$> log).

(** The operands of all the objects of a store. *)
Definition operands_total (h : heap) : nat :=
  list_sum ((fun o => length (ob_operands o)) <$> h).

(** A store with an operand that is not a node: [Add((Symbol('x'), 5))]. *)
Definition raw_operand_heap : heap :=
  [Object Symbol [] (Some (SStr "x")); Object Add [VRef 0; VInt 5] None].

(** The store of [a - (b - c)] (root 4) and of [(a - b) - c] (root 6). *)
Definition difference_heap : heap :=
  [Object Symbol [] (Some (SStr "a")); Object Symbol [] (Some (SStr "b"));
   Object Symbol [] (Some (SStr "c"));
   Object Sub [VRef 1; VRef 2] None; Object Sub [VRef 0; VRef 3] None;
   Object Sub [VRef 0; VRef 1] None; Object Sub [VRef 5; VRef 2] None].

(** * Construction *)

Lemma isinstance_numeric (v : value) :
  isinstance v [T_int; T_float] = true
  ↔ ∃ s, v = VScalar s ∧ match s with
                          | SBool _ | SInt _ | SFloat _ => True
                          | _ => False
                          end.
Proof.
  split.
  - destruct v as [[]| |]; vm_compute; try discriminate;
      intros _; eexists; (split; [reflexivity | exact I]).
  - intros ([] & -> & Hs); by try destruct Hs.
Qed.

Lemma isinstance_text (v : value) :
  isinstance v [T_str] = true ↔ ∃ s, v = VStr s.
Proof.
  split.
  - destruct v as [[]| |]; vm_compute; try discriminate; eauto.
  - by intros (s & ->).
Qed.

Lemma call_Number_accepted (v : value) (s : scalar) (h : heap) :
  isinstance v [T_int; T_float] = true → as_scalar v = Some s →
  call Number [v] h = Return (VRef (length h)) (h ++ [Object Number [] (Some s)]).
Proof.
  intros Hi Hs. unfold call, init, Number.__init__. by rewrite Hi, Hs.
Qed.

Lemma call_Number_rejected (v : value) (h : heap) :
  isinstance v [T_int; T_float] = false → call Number [v] h = Raise ValueError h.
Proof. intros Hi. unfold call, init, Number.__init__. by rewrite Hi. Qed.

Lemma call_Symbol_rejected (v : value) (h : heap) :
  isinstance v [T_str] = false → call Symbol [v] h = Raise ValueError h.
Proof. intros Hi. unfold call, init, Symbol.__init__. by rewrite Hi. Qed.

(** Two positional arguments are one too many for every class. *)
Lemma call_two_arguments (k : klass) (x y : value) (h : heap) :
  call k [x; y] h = Raise TypeError h.
Proof. by destruct k. Qed.

(** An operator class called with the tuple of its operands allocates the
    node. *)
Lemma call_operator_tuple (k : klass) (items : list value) (h : heap) :
  is_terminal k = false →
  call k [VTuple items] h = Return (VRef (length h)) (h ++ [Object k items None]).
Proof. by destruct k. Qed.

(** C4, as stated, fails: a text payload given to [Number] and a numeric
    payload given to [Symbol] raise [ValueError], which is not
    [TypeError]. *)
Lemma wrong_payload_is_not_TypeError :
  call Number [VStr "abc"] [] = Raise ValueError []
  ∧ call Number [VStr "abc"] [] ≠ Raise TypeError []
  ∧ call Symbol [VInt 7] [] = Raise ValueError []
  ∧ call Symbol [VInt 7] [] ≠ Raise TypeError [].
Proof. repeat split; discriminate. Qed.

(** C4, amended: a payload that is neither [int] nor [float] given to
    [Number], and a payload that is not [str] given to [Symbol], make the
    construction raise [ValueError] at once; the store is unchanged, so
    no node is produced. *)
Theorem wrong_payload_raises_ValueError (k : klass) (v : value) (h : heap) :
  (k = Number ∧ isinstance v [T_int; T_float] = false)
  ∨ (k = Symbol ∧ isinstance v [T_str] = false) →
  call k [v] h = Raise ValueError h.
Proof.
  intros [[-> Hi] | [-> Hi]].
  - by apply call_Number_rejected.
  - by apply call_Symbol_rejected.
Qed.

(** [Number("abc")] raises [ValueError] in the empty store. *)
Lemma wrong_payload_raises_ValueError_witness :
  ((Number = Number ∧ isinstance (VStr "abc") [T_int; T_float] = false)
   ∨ (Number = Symbol ∧ isinstance (VStr "abc") [T_str] = false))
  ∧ call Number [VStr "abc"] [] = Raise ValueError [].
Proof.
  split.
  - left. split; reflexivity.
  - apply (wrong_payload_raises_ValueError Number (VStr "abc") []).
    left. split; reflexivity.
Defined.

(** C10: [Number] accepts a [bool] payload and stores it, because [bool]
    is a subclass of [int]; the construction raises exactly when the
    payload is neither an [int] nor a [float]. *)
Theorem Number_accepts_bool :
  issubclass T_bool T_int = true
  ∧ (∀ (b : bool) (h : heap),
       call Number [VScalar (SBool b)] h
       = Return (VRef (length h)) (h ++ [Object Number [] (Some (SBool b))]))
  ∧ (∀ (v : value) (h : heap),
       (∃ e h', call Number [v] h = Raise e h')
       ↔ isinstance v [T_int; T_float] = false)
  ∧ (∀ (v : value) (h : heap),
       (∃ s, as_scalar v = Some s
             ∧ call Number [v] h
               = Return (VRef (length h)) (h ++ [Object Number [] (Some s)]))
       ↔ isinstance v [T_int; T_float] = true).
Proof.
  split; [reflexivity|]. split; [reflexivity|]. split.
  - intros v h. split.
    + intros (e & h' & Hc).
      destruct (isinstance v [T_int; T_float]) eqn:Hi; [|done].
      apply isinstance_numeric in Hi as (s & -> & Hs).
      destruct s; try done; discriminate.
    + intros Hi. exists ValueError, h. by apply call_Number_rejected.
  - intros v h. split.
    + intros (s & Hs & Hc).
      destruct (isinstance v [T_int; T_float]) eqn:Hi; [done|].
      rewrite call_Number_rejected in Hc; done.
    + intros Hi. pose proof Hi as (s & -> & Hs)%isinstance_numeric.
      exists s. split; [done|]. by apply call_Number_accepted.
Qed.

(** C5 (the code does otherwise): for every node [self] and every numeric
    [k], each of the ten arithmetic methods raises [TypeError] instead of
    returning an operator node: the operator class is called with two
    positional arguments and its [__init__] takes one.  Only the
    [Number] that wraps [k] has been allocated by then. *)
Theorem arithmetic_raises_TypeError (self : value) (k : scalar) (h : heap) :
  isinstance (VScalar k) [T_int; T_float] = true →
  let h' := h ++ [Object Number [] (Some k)] in
  Arithmetic.__add__ self (VScalar k) h = Raise TypeError h'
  ∧ Arithmetic.__radd__ self (VScalar k) h = Raise TypeError h'
  ∧ Arithmetic.__sub__ self (VScalar k) h = Raise TypeError h'
  ∧ Arithmetic.__rsub__ self (VScalar k) h = Raise TypeError h'
  ∧ Arithmetic.__mul__ self (VScalar k) h = Raise TypeError h'
  ∧ Arithmetic.__rmul__ self (VScalar k) h = Raise TypeError h'
  ∧ Arithmetic.__truediv__ self (VScalar k) h = Raise TypeError h'
  ∧ Arithmetic.__rtruediv__ self (VScalar k) h = Raise TypeError h'
  ∧ Arithmetic.__pow__ self (VScalar k) h = Raise TypeError h'
  ∧ Arithmetic.__rpow__ self (VScalar k) h = Raise TypeError h'.
Proof.
  intros Hk h'.
  assert (Hn : call Number [VScalar k] h = Return (VRef (length h)) h')
    by (by apply call_Number_accepted).
  assert (Hc : coerce (VScalar k) h = Return (VRef (length h)) h').
  { unfold coerce. by destruct k. }
  unfold Arithmetic.__radd__, Arithmetic.__rmul__, Arithmetic.__add__,
    Arithmetic.__sub__, Arithmetic.__rsub__, Arithmetic.__mul__,
    Arithmetic.__truediv__, Arithmetic.__rtruediv__, Arithmetic.__pow__,
    Arithmetic.__rpow__, bind.
  rewrite Hn, Hc. by rewrite !call_two_arguments.
Qed.

(** [x + 5] for [x = Symbol('x')]. *)
Lemma arithmetic_raises_TypeError_witness :
  isinstance (VScalar (SInt 5)) [T_int; T_float] = true
  ∧ Arithmetic.__add__ (VRef 0) (VInt 5) [Object Symbol [] (Some (SStr "x"))]
    = Raise TypeError [Object Symbol [] (Some (SStr "x"));
                       Object Number [] (Some (SInt 5))].
Proof.
  split; [reflexivity|].
  apply (arithmetic_raises_TypeError (VRef 0) (SInt 5)
           [Object Symbol [] (Some (SStr "x"))]).
  reflexivity.
Defined.

(** * Rendering *)

Lemma prec_lt_Finite (m n : Z) : prec_lt (Finite m) (Finite n) = true ↔ (m < n)%Z.
Proof. apply Z.ltb_lt. Qed.




Lemma symbol_operator (k : klass) :
  is_terminal k = false → ∃ sym, symbol k = Some sym.
Proof. destruct k; try discriminate; eauto. Qed.

Lemma str_terminal (float_repr : spec_float -> string) (d : nat) (h : heap)
  (a : addr) (self : object) (v : scalar) :
  h !! a = Some self → is_terminal (ob_type self) = true →
  ob_value self = Some v →
  str float_repr (S d) h a = scalar_str float_repr v.
Proof.
  intros Ha Ht Hv. simpl. rewrite Ha, Ht.
  unfold Terminal.__str__. by rewrite Hv.
Qed.

Lemma str_operator (float_repr : spec_float -> string) (d : nat) (h : heap)
  (a l r : addr) (self cl cr : object) (sl sr sym : string) :
  h !! a = Some self → is_terminal (ob_type self) = false →
  ob_operands self = [VRef l; VRef r] →
  h !! l = Some cl → h !! r = Some cr →
  str float_repr d h l = Ok sl → str float_repr d h r = Ok sr →
  symbol (ob_type self) = Some sym →
  str float_repr (S d) h a
  = Ok (wrapped (prec_lt (precedence (ob_type cl)) (precedence (ob_type self))) sl
        +:+ " " +:+ sym +:+ " "
        +:+ wrapped (prec_lt (precedence (ob_type cr)) (precedence (ob_type self))) sr).
Proof.
  intros Ha Ht Hops Hl Hr Hsl Hsr Hsym. simpl. rewrite Ha, Ht.
  unfold Operator.__str__. rewrite Hops. simpl. rewrite Hl, Hr. simpl.
  rewrite Hsl, Hsr, Hsym. unfold wrapped.
  by destruct (prec_lt (precedence (ob_type cl)) _),
              (prec_lt (precedence (ob_type cr)) _).
Qed.



(** C7, as stated, fails: [Pow(Pow(x, y), z)] does not render as
    ["(x ^ y) ^ z"].  Its left operand has the precedence of [Pow] itself,
    which is not strictly lower, so the node renders as ["x ^ y ^ z"];
    built as written, with two positional arguments, it is not built at
    all. *)
Lemma pow_left_has_no_parentheses :
  str_of (fun _ => "") 10 pow_left_seq = Ok "x ^ y ^ z"
  ∧ str_of (fun _ => "") 10 pow_left_seq ≠ Ok "(x ^ y) ^ z"
  ∧ str_of (fun _ => "") 10 pow_left = Error TypeError
  ∧ str_of (fun _ => "") 10 pow_left ≠ Ok "(x ^ y) ^ z".
Proof. repeat split; discriminate. Qed.

(** C7, amended: the node [(x + y) * z] renders as ["(x + y) * z"], the
    node [x * y + z] as ["x * y + z"], and both [Pow(x, Pow(y, z))] and
    [Pow(Pow(x, y), z)] render as ["x ^ y ^ z"], at every depth of at
    least three calls. *)
Theorem str_precedence_examples (float_repr : spec_float -> string) (d : nat) :
  str_of float_repr (3 + d) sum_times_seq = Ok "(x + y) * z"
  ∧ str_of float_repr (3 + d) product_plus_seq = Ok "x * y + z"
  ∧ str_of float_repr (3 + d) pow_right_seq = Ok "x ^ y ^ z"
  ∧ str_of float_repr (3 + d) pow_left_seq = Ok "x ^ y ^ z".
Proof. repeat split; reflexivity. Qed.

(** * The visitor *)

Section VisitorFacts.

Context {R K W : Type}.
Variable h : heap.
Variable fn : combiner R K W.
Variable kwargs : K.

Implicit Types (V : gmap addr R) (st : vstate R W) (a : addr).

(** The [for] loop over the reversed operands leaves the operands that
    are not visited yet on top of the stack, the first one topmost. *)
Lemma push_unvisited_rev V (ops stk : list value) :
  push_unvisited V (rev ops) stk
  = filter (fun c => in_visited V c = false) ops ++ stk.
Proof.
  unfold push_unvisited.
  induction ops as [|c ops IH]; [done|].
  simpl rev. rewrite fold_left_app. simpl. rewrite IH, filter_cons.
  destruct (in_visited V c) eqn:Hc.
  - by rewrite decide_False by done.
  - by rewrite decide_True by done.
Qed.

Lemma in_visited_ref V a :
  in_visited V (VRef a) = true ↔ is_Some (V !! a).
Proof. simpl. apply bool_decide_eq_true. Qed.

Lemma in_visited_ref_false V a :
  in_visited V (VRef a) = false ↔ V !! a = None.
Proof.
  simpl. rewrite bool_decide_eq_false. by rewrite eq_None_not_Some.
Qed.

Lemma in_visited_mono V V' (c : value) :
  V ⊆ V' → in_visited V c = true → in_visited V' c = true.
Proof.
  intros Hsub. destruct c as [| |a]; try done.
  rewrite !in_visited_ref. intros [r Hr]. exists r.
  by eapply lookup_weaken.
Qed.

(** When all the operands are visited, their results are found. *)
Lemma getitems_visited V (ops : list value) :
  forallb (in_visited V) ops = true → ∃ args, getitems V ops = Ok args.
Proof.
  induction ops as [|c ops IH]; simpl; [by eauto|].
  intros [Hc Hops]%andb_prop. destruct (IH Hops) as [args Hargs].
  destruct c as [| |a]; try done.
  apply in_visited_ref in Hc as [r Hr].
  exists (r :: args). simpl. by rewrite Hr, Hargs.
Qed.

Lemma while_loop_empty (fuel : nat) V (rs : list R) (w : W) :
  while_loop h fn kwargs fuel (VState V [] rs w) = Finished (VState V [] rs w).
Proof. by destruct fuel. Qed.

(** A node that is visited already is popped and dropped. *)
Lemma while_loop_visited (fuel : nat) V a (rest : list value) (rs : list R)
  (w : W) :
  is_Some (V !! a) →
  while_loop h fn kwargs (S fuel) (VState V (VRef a :: rest) rs w)
  = while_loop h fn kwargs fuel (VState V rest rs w).
Proof.
  intros Ha%in_visited_ref. simpl while_loop. unfold iteration.
  cbn [visited stack result_stack world]. by rewrite Ha.
Qed.

(** A node whose operands are all visited is combined. *)
Lemma while_loop_ready (fuel : nat) V a (o : object) (args : list R)
  (rest : list value) (rs : list R) (w : W) :
  V !! a = None → h !! a = Some o →
  getitems V (ob_operands o) = Ok args →
  forallb (in_visited V) (ob_operands o) = true →
  while_loop h fn kwargs (S fuel) (VState V (VRef a :: rest) rs w)
  = match fn a args kwargs w with
    | FnReturn r w' =>
        while_loop h fn kwargs fuel (VState (<[a := r]> V) rest (rs ++ [r]) w')
    | FnRaise e w' => Aborted e w'
    end.
Proof.
  intros Ha%in_visited_ref_false Ho Hargs Hall.
  simpl while_loop. unfold iteration.
  cbn [visited stack result_stack world node_of].
  rewrite Ha, Ho, Hall, Hargs. by destruct (fn a args kwargs w).
Qed.

(** A node with an operand that is not visited goes back on the stack,
    under its unvisited operands. *)
Lemma while_loop_requeue (fuel : nat) V a (o : object) (rest : list value)
  (rs : list R) (w : W) :
  V !! a = None → h !! a = Some o →
  forallb (in_visited V) (ob_operands o) = false →
  while_loop h fn kwargs (S fuel) (VState V (VRef a :: rest) rs w)
  = while_loop h fn kwargs fuel
      (VState V (filter (fun c => in_visited V c = false) (ob_operands o)
                 ++ VRef a :: rest) rs w).
Proof.
  intros Ha%in_visited_ref_false Ho Hall.
  simpl while_loop. unfold iteration.
  cbn [visited stack result_stack world node_of].
  by rewrite Ha, Ho, Hall, push_unvisited_rev.
Qed.

End VisitorFacts.

Section Termination.

Context {R K W : Type}.
Variable h : heap.
Variable fn : combiner R K W.
Variable kwargs : K.
Variable rank : addr -> nat.
Hypothesis Hranked : ranked rank h.

(** An invariant of the dictionary and the caller's state that every
    call of the combining function on a ready node preserves. *)
Variable Inv : gmap addr R -> W -> Prop.
Hypothesis Inv_call :
  ∀ V w a o args,
    Inv V w → h !! a = Some o → V !! a = None →
    getitems V (ob_operands o) = Ok args →
    match fn a args kwargs w with
    | FnReturn r w' => Inv (<[a := r]> V) w'
    | FnRaise _ _ => True
    end.

Implicit Types (V : gmap addr R) (a : addr).

Lemma visit_ready V a (o : object) (rest : list value) (rs : list R) (w : W) :
  Inv V w → h !! a = Some o →
  forallb (in_visited V) (ob_operands o) = true →
  processes h fn kwargs Inv (VState V (VRef a :: rest) rs w) rest
            (fun V' => is_Some (V' !! a)).
Proof.
  intros HInv Ho Hall. exists 1.
  destruct (V !! a) as [r|] eqn:HVa.
  - right. exists V, rs, w. split_and!; [done|done|by eauto|].
    intros f. apply while_loop_visited. by eauto.
  - destruct (getitems_visited V _ Hall) as [args Hargs].
    pose proof (Inv_call V w a o args HInv Ho HVa Hargs) as Hcall.
    pose proof (while_loop_ready h fn kwargs) as Hstep.
    destruct (fn a args kwargs w) as [r w'|e w'] eqn:Hfn.
    + right. exists (<[a := r]> V), (rs ++ [r]), w'.
      split_and!; [done| |by rewrite lookup_insert_eq|].
      * simpl. by apply insert_subseteq.
      * intros f. simpl Nat.add.
        rewrite (Hstep f V a o args rest rs w HVa Ho Hargs Hall).
        by rewrite Hfn.
    + left. exists e, w'. split; [by exists V, w, a, o, args|].
      intros f. simpl Nat.add.
      rewrite (Hstep f V a o args rest rs w HVa Ho Hargs Hall).
      by rewrite Hfn.
Qed.

Lemma visit_children (n : nat) :
  (∀ a, rank a < n → is_Some (h !! a) →
     ∀ V rest rs w, Inv V w →
       processes h fn kwargs Inv (VState V (VRef a :: rest) rs w) rest
                 (fun V' => is_Some (V' !! a))) →
  ∀ cs : list value,
    Forall (fun v => ∃ c, v = VRef c ∧ is_Some (h !! c) ∧ rank c < n) cs →
    ∀ V rest rs w, Inv V w →
      processes h fn kwargs Inv (VState V (cs ++ rest) rs w) rest
                (fun V' => Forall (fun v => in_visited V' v = true) cs).
Proof.
  intros IHn cs Hcs.
  induction Hcs as [|v cs (c & -> & Hc & Hlt) Hcs IHcs];
    intros V rest rs w HInv.
  - exists 0. right. exists V, rs, w. by split_and!.
  - destruct (IHn c Hlt Hc V (cs ++ rest) rs w HInv)
      as [k1 [(e & w' & Hfn & Hrun)|(V1 & rs1 & w1 & HInv1 & Hsub1 & Hc1 & Hrun1)]].
    + exists k1. left. by exists e, w'.
    + destruct (IHcs V1 rest rs1 w1 HInv1)
        as [k2 [(e & w' & Hfn & Hrun)|(V2 & rs2 & w2 & HInv2 & Hsub2 & Hcs2 & Hrun2)]].
      * exists (k1 + k2). left. exists e, w'. split; [done|].
        intros f. rewrite <- Nat.add_assoc. simpl app.
        by rewrite Hrun1, Hrun.
      * exists (k1 + k2). right. exists V2, rs2, w2.
        simpl in Hsub1, Hsub2. split_and!; [done| | |].
        -- simpl. by etrans.
        -- constructor; [|done].
           eapply in_visited_mono; [done|]. by apply in_visited_ref.
        -- intros f. rewrite <- Nat.add_assoc. simpl app.
           by rewrite Hrun1, Hrun2.
Qed.

(** Every node of a ranked store is processed: the loop pops it for good
    after finitely many iterations, with the node in the dictionary. *)
Lemma visit_node (n : nat) :
  ∀ a, rank a < n → is_Some (h !! a) →
    ∀ V rest rs w, Inv V w →
      processes h fn kwargs Inv (VState V (VRef a :: rest) rs w) rest
                (fun V' => is_Some (V' !! a)).
Proof.
  induction n as [|n IHn]; [intros a Hlt; lia|].
  intros a Hlt [o Ho] V rest rs w HInv.
  destruct (forallb (in_visited V) (ob_operands o)) eqn:Hall;
    [by eapply visit_ready|].
  destruct (V !! a) as [r|] eqn:HVa.
  { exists 1. right. exists V, rs, w. split_and!; [done|done|by eauto|].
    intros f. apply while_loop_visited. by eauto. }
  set (cs := filter (fun c => in_visited V c = false) (ob_operands o)).
  assert (Hcs : Forall (fun v => ∃ c, v = VRef c ∧ is_Some (h !! c) ∧ rank c < n) cs).
  { apply Forall_forall. intros v [Hv Hin]%list_elem_of_filter.
    pose proof (Hranked a o Ho) as Hops.
    rewrite Forall_forall in Hops.
    destruct (Hops v) as (c & -> & Hc & Hrk); [done|].
    exists c. split_and!; [done|done|lia]. }
  destruct (visit_children n IHn cs Hcs V (VRef a :: rest) rs w HInv)
    as [k1 [(e & w' & Hfn & Hrun)|(V1 & rs1 & w1 & HInv1 & Hsub1 & Hcs1 & Hrun1)]].
  - exists (S k1). left. exists e, w'. split; [done|].
    intros f. simpl Nat.add.
    rewrite (while_loop_requeue h fn kwargs _ V a o rest rs w HVa Ho Hall).
    apply Hrun.
  - simpl in Hsub1.
    assert (Hall1 : forallb (in_visited V1) (ob_operands o) = true).
    { apply forallb_forall. intros v Hv%list_elem_of_In.
      destruct (in_visited V v) eqn:HVv.
      - by eapply in_visited_mono.
      - rewrite Forall_forall in Hcs1. apply Hcs1.
        by apply list_elem_of_filter. }
    destruct (visit_ready V1 a o rest rs1 w1 HInv1 Ho Hall1)
      as [k2 [(e & w' & Hfn & Hrun)|(V2 & rs2 & w2 & HInv2 & Hsub2 & Ha2 & Hrun2)]].
    + exists (S (k1 + k2)). left. exists e, w'. split; [done|].
      intros f. simpl Nat.add.
      rewrite (while_loop_requeue h fn kwargs _ V a o rest rs w HVa Ho Hall).
      rewrite <- Nat.add_assoc. fold cs. by rewrite Hrun1, Hrun.
    + exists (S (k1 + k2)). right. exists V2, rs2, w2.
      simpl in Hsub2. split_and!; [done| |done|].
      * simpl. by etrans.
      * intros f. simpl Nat.add.
        rewrite (while_loop_requeue h fn kwargs _ V a o rest rs w HVa Ho Hall).
        rewrite <- Nat.add_assoc. fold cs. by rewrite Hrun1, Hrun2.
Qed.

(** On an acyclic graph the traversal stops: with enough fuel it returns
    the result recorded for the root, unless the combining function
    raised. *)
Lemma postvisitor_stops (root : addr) (w : W) :
  is_Some (h !! root) → Inv ∅ w →
  ∃ k,
    (∃ e w', raising_call h fn kwargs Inv e w'
             ∧ ∀ f, postvisitor h fn kwargs (k + f) (VRef root) w = Raised e w')
    ∨ (∃ V' r w', Inv V' w' ∧ V' !! root = Some r
             ∧ ∀ f, postvisitor h fn kwargs (k + f) (VRef root) w = Returned r w').
Proof.
  intros Hroot HInv.
  destruct (visit_node (S (rank root)) root (Nat.lt_succ_diag_r _) Hroot
              ∅ [] [] w HInv)
    as [k [(e & w' & Hfn & Hrun)|(V' & rs' & w' & HInv' & _ & [r Hr] & Hrun)]].
  - exists k. left. exists e, w'. split; [done|].
    intros f. unfold postvisitor. by rewrite Hrun.
  - exists k. right. exists V', r, w'. split_and!; [done|done|].
    intros f. unfold postvisitor. rewrite Hrun, while_loop_empty.
    simpl. by rewrite Hr.
Qed.

End Termination.

(** ** The visitor computes the recursive fold *)

Lemma mapM_ext {A B} (f g : A -> option B) (l : list A) :
  Forall (fun x => f x = g x) l → mapM f l = mapM g l.
Proof.
  induction 1 as [|x l Hx _ IH]; [done|]. simpl. by rewrite Hx, IH.
Qed.

Section Fold.

Context {R K : Type}.
Variable f : addr -> list R -> K -> R.
Variable kwargs : K.
Variable h : heap.
Variable rank : addr -> nat.
Hypothesis Hranked : ranked rank h.

(** More depth than the rank of the node does not change the fold. *)
Lemma fold_fuel (n m : nat) (a : addr) :
  rank a < n → rank a < m →
  fold f kwargs h n (VRef a) = fold f kwargs h m (VRef a).
Proof.
  revert m a. induction n as [|n IH]; intros m a Hn Hm; [lia|].
  destruct m as [|m]; [lia|]. simpl.
  destruct (h !! a) as [o|] eqn:Ho; [|done].
  rewrite (mapM_ext (fold f kwargs h n) (fold f kwargs h m)); [done|].
  eapply Forall_impl; [exact (Hranked a o Ho)|].
  intros v (c & -> & _ & Hc). simpl in Hc. apply IH; lia.
Qed.

Lemma getitems_folded (V : gmap addr R) (n : nat) (ops : list value)
  (args : list R) :
  folded f kwargs h rank V →
  Forall (fun v => ∃ c, v = VRef c ∧ is_Some (h !! c) ∧ rank c < n) ops →
  getitems V ops = Ok args →
  mapM (fold f kwargs h n) ops = Some args.
Proof.
  intros HV Hops. revert args.
  induction Hops as [|v ops (c & -> & _ & Hc) _ IH]; intros args Hargs.
  - simpl in Hargs. by injection Hargs as <-.
  - simpl in Hargs.
    destruct (V !! c) as [r|] eqn:Hr; [|done]. simpl in Hargs.
    destruct (getitems V ops) as [rs|] eqn:Hrs; [|done].
    simpl in Hargs. injection Hargs as <-.
    cbn [mapM]. rewrite (IH rs eq_refl).
    rewrite (fold_fuel n (S (rank c)) c) by lia.
    by rewrite (HV c r Hr).
Qed.

Lemma folded_insert (V : gmap addr R) (a : addr) (o : object) (args : list R) :
  folded f kwargs h rank V → h !! a = Some o →
  getitems V (ob_operands o) = Ok args →
  folded f kwargs h rank (<[a := f a args kwargs]> V).
Proof.
  intros HV Ho Hargs a' r. rewrite lookup_insert.
  case_decide as Ha; [|by apply HV].
  subst a'. intros [= <-]. simpl. rewrite Ho.
  by rewrite (getitems_folded V (rank a) _ args HV (Hranked a o Ho) Hargs).
Qed.

(** With a combining function without effects, the traversal of an
    acyclic graph returns the fold of the root and leaves the caller's
    state alone. *)
Lemma postvisitor_fold {W} (root : addr) (w : W) :
  is_Some (h !! root) →
  ∃ k r,
    fold f kwargs h (S (rank root)) (VRef root) = Some r
    ∧ ∀ fuel, postvisitor h (pure_fn f) kwargs (k + fuel) (VRef root) w
              = Returned r w.
Proof.
  intros Hroot.
  destruct (postvisitor_stops h (pure_fn f) kwargs rank Hranked
              (fun V w' => w' = w ∧ folded f kwargs h rank V)) with (root := root) (w := w)
    as [k [(e & w' & (V0 & w0 & a & o & args & _ & _ & _ & _ & Hfn) & _)|(V' & r & w' & [-> HV'] & Hr & Hrun)]].
  - intros V w0 a o args [-> HV] Ho _ Hargs. unfold pure_fn.
    split; [done|]. by eapply folded_insert.
  - done.
  - split; [done|]. intros a r. by rewrite lookup_empty.
  - discriminate.
  - exists k, r. split; [by apply HV'|done].
Qed.

End Fold.

(** ** What the log of a traversal looks like *)

Section Tracing.

Context {R K W : Type}.
Variable h : heap.
Variable fn : combiner R K W.
Variable kwargs : K.

Abbreviation log := (list (invocation R K)).
Implicit Types (st : vstate R (W * log)).

(** Tracing does not change the traversal. *)
Lemma iteration_erase st (node : value) (rest : list value) :
  erase_step (iteration h (traced fn) kwargs st node rest)
  = iteration h fn kwargs (erase_state st) node rest.
Proof.
  unfold iteration, erase_state. cbn [visited stack result_stack world].
  destruct (in_visited (visited st) node); [done|].
  destruct (node_of h node) as [[a o]|e]; [|done].
  destruct (forallb (in_visited (visited st)) (ob_operands o)); [|done].
  destruct (getitems (visited st) (ob_operands o)) as [args|e]; [|done].
  unfold traced. by destruct (fn a args kwargs (world st).1).
Qed.

Lemma while_loop_erase (fuel : nat) st :
  erase_run (while_loop h (traced fn) kwargs fuel st)
  = while_loop h fn kwargs fuel (erase_state st).
Proof.
  revert st. induction fuel as [|fuel IH]; intros st.
  - simpl. by destruct (stack st).
  - simpl. destruct (stack st) as [|node rest] eqn:Hst; [done|].
    rewrite <- iteration_erase.
    destruct (iteration h (traced fn) kwargs st node rest) as [st'|e wl];
      [apply IH|done].
Qed.

Lemma postvisitor_erase (fuel : nat) (expr : value) (w : W) (l : log) :
  erase_visit (postvisitor h (traced fn) kwargs fuel expr (w, l))
  = postvisitor h fn kwargs fuel expr w.
Proof.
  unfold postvisitor.
  change (VState ∅ [expr] [] w)
    with (erase_state (VState (∅ : gmap addr R) [expr] [] (w, l))).
  rewrite <- while_loop_erase.
  destruct (while_loop h (traced fn) kwargs fuel _) as [st|e wl|st]; simpl;
    [|done|done].
  by destruct (getitem (visited st) expr).
Qed.

(** One iteration keeps the log well formed. *)
Lemma iteration_logged st (node : value) (rest : list value) :
  logged_state h kwargs st →
  match iteration h (traced fn) kwargs st node rest with
  | Next st' => logged_state h kwargs st'
  | Abort e wl => logged_abort h fn kwargs e wl
  end.
Proof.
  intros (Hlog & Hret & Hvis). unfold iteration.
  destruct (in_visited (visited st) node) eqn:Hin; [done|].
  destruct (node_of h node) as [[a o]|e] eqn:Hnode;
    [|by split; [|right]].
  destruct node as [| |a']; try done. simpl in Hnode.
  destruct (h !! a') as [o'|] eqn:Ho; [|done]. injection Hnode as -> ->.
  apply in_visited_ref_false in Hin.
  destruct (forallb (in_visited (visited st)) (ob_operands o)); [|done].
  destruct (getitems (visited st) (ob_operands o)) as [args|e] eqn:Hargs;
    [|by split; [|right]].
  assert (Hnew : ∀ res, well_logged h kwargs
                          (Invocation a args kwargs res :: (world st).2)).
  { intros res. simpl. split_and!; [done|done|by rewrite <- Hvis|done|].
    exists o. split; [done|]. by rewrite <- Hvis. }
  unfold traced.
  destruct (fn a args kwargs (world st).1) as [r w'|e w'] eqn:Hfn.
  - split_and!; [apply Hnew|simpl; by constructor|simpl; by rewrite Hvis].
  - split; [apply Hnew|]. left. by eexists _, _, (world st).1.
Qed.

Lemma while_loop_logged (fuel : nat) st :
  logged_state h kwargs st →
  match while_loop h (traced fn) kwargs fuel st with
  | Finished st' => logged_state h kwargs st'
  | Aborted e wl => logged_abort h fn kwargs e wl
  | OutOfFuel st' => logged_state h kwargs st'
  end.
Proof.
  revert st. induction fuel as [|fuel IH]; intros st Hst.
  - simpl. by destruct (stack st).
  - simpl. destruct (stack st) as [|node rest]; [done|].
    pose proof (iteration_logged st node rest Hst) as Hit.
    destruct (iteration h (traced fn) kwargs st node rest) as [st'|e wl];
      [by apply IH|done].
Qed.

(** The log of a whole traversal, however it ends and however far it
    got. *)
Lemma postvisitor_logged (fuel : nat) (expr : value) (w : W) :
  match postvisitor h (traced fn) kwargs fuel expr (w, []) with
  | Returned r wl =>
      well_logged h kwargs wl.2
      ∧ Forall (fun c => returned (inv_result c)) wl.2
      ∧ getitem (results wl.2) expr = Ok r
  | Raised e wl => logged_abort h fn kwargs e wl
  | Running st => logged_state h kwargs st
  end.
Proof.
  unfold postvisitor.
  pose proof (while_loop_logged fuel (VState ∅ [expr] [] (w, []))) as Hrun.
  destruct (while_loop h (traced fn) kwargs fuel _) as [st|e wl|st];
    [|by apply Hrun|by apply Hrun].
  destruct Hrun as (Hlog & Hret & Hvis); [by split_and!|].
  destruct (getitem (visited st) expr) eqn:Hget.
  - by rewrite <- Hvis.
  - split; [done|by right].
Qed.

End Tracing.

(** ** Reading a well-formed log *)

Section Logs.

Context {R K : Type}.
Variable h : heap.
Variable kw : K.

Implicit Types (log l : list (invocation R K)) (c : invocation R K).

Lemma results_Some l (a : addr) (r : R) :
  results l !! a = Some r →
  ∃ c, c ∈ l ∧ inv_node c = a ∧ inv_result c = Ok r.
Proof.
  induction l as [|c l IH]; simpl; [by rewrite lookup_empty|].
  destruct (inv_result c) as [r'|e] eqn:Hres.
  - rewrite lookup_insert. case_decide as Ha.
    + intros [= <-]. exists c. split_and!; [by left|done|done].
    + intros (c' & Hin & Hc')%IH. exists c'. split; [by right|done].
  - intros (c' & Hin & Hc')%IH. exists c'. split; [by right|done].
Qed.

Lemma results_None l (a : addr) :
  Forall (fun c => returned (inv_result c)) l →
  results l !! a = None → a ∉ (inv_node <$> l).
Proof.
  induction 1 as [|c l Hc _ IH]; simpl; [by intros _ ?%not_elem_of_nil|].
  destruct (inv_result c) as [r|e]; [|done].
  rewrite lookup_insert. case_decide as Ha; [done|].
  intros Hl%IH. rewrite not_elem_of_cons. done.
Qed.

(** Each node is passed to the combining function at most once. *)
Lemma well_logged_NoDup log : well_logged h kw log → NoDup (inv_node <$> log).
Proof.
  induction log as [|c l IH]; simpl; [intros _; constructor|].
  intros (Hl & Hret & Hnew & _). constructor; [|by apply IH].
  by apply results_None.
Qed.

Lemma well_logged_suffix l1 l2 : well_logged h kw (l1 ++ l2) → well_logged h kw l2.
Proof.
  induction l1 as [|c l1 IH]; [done|]. simpl. intros (Hl & _). by apply IH.
Qed.

Lemma getitems_Forall2 (V : gmap addr R) (ops : list value) (args : list R) :
  getitems V ops = Ok args →
  Forall2 (fun v r => ∃ a, v = VRef a ∧ V !! a = Some r) ops args.
Proof.
  revert args. induction ops as [|v ops IH]; intros args; simpl.
  - intros [= <-]. constructor.
  - destruct v as [| |a]; try done. simpl.
    destruct (V !! a) as [r|] eqn:Hr; [|done]. simpl.
    destruct (getitems V ops) as [rs|]; [|done]. simpl.
    intros [= <-]. constructor; [by exists a|by apply IH].
Qed.

(** A call of a well-formed log has the keyword arguments of the
    traversal, is the first call on its node, and its positional
    arguments are, in the order of the operands of the node, the results
    of earlier calls on these operands. *)
Lemma well_logged_call l1 c l2 :
  well_logged h kw (l1 ++ c :: l2) →
  inv_kwargs c = kw
  ∧ (inv_node c ∉ inv_node <$> l2)
  ∧ ∃ o, h !! inv_node c = Some o
         ∧ Forall2 (fun v r => ∃ c', c' ∈ l2 ∧ v = VRef (inv_node c')
                                     ∧ inv_result c' = Ok r)
                   (ob_operands o) (inv_args c).
Proof.
  intros (Hl & Hret & Hnew & Hkw & o & Ho & Hargs)%well_logged_suffix.
  split_and!; [done|by apply results_None|].
  exists o. split; [done|].
  eapply Forall2_impl; [by apply getitems_Forall2|].
  intros v r (a & -> & (c' & Hin & <- & Hres)%results_Some). by exists c'.
Qed.

(** Only the newest call of a well-formed log can have raised. *)
Lemma well_logged_raise l1 c l2 (e : exn) :
  well_logged h kw (l1 ++ c :: l2) → inv_result c = Error e → l1 = [].
Proof.
  destruct l1 as [|c1 l1]; [done|]. simpl. intros (_ & Hret & _) Hc.
  rewrite Forall_app, Forall_cons in Hret. destruct Hret as (_ & Hret & _).
  by rewrite Hc in Hret.
Qed.

End Logs.

(** ** Stores laid out by the constructors are acyclic *)

Lemma ordered_from_lookup (objs : list object) (a i : addr) (o : object) :
  ordered_from a objs = true → objs !! i = Some o →
  Forall (fun v => ∃ c, v = VRef c ∧ c < a + i) (ob_operands o).
Proof.
  revert a i. induction objs as [|o' objs IH]; intros a i; [done|].
  simpl. intros [Ho' Hobjs]%andb_prop. destruct i as [|i]; simpl.
  - intros [= ->]. apply Forall_forall. intros v Hv%list_elem_of_In.
    rewrite forallb_forall in Ho'. specialize (Ho' v Hv).
    destruct v as [| |c]; try done. exists c. split; [done|].
    apply bool_decide_eq_true in Ho'. lia.
  - intros Hi. eapply Forall_impl; [by apply (IH (S a) i)|].
    intros v (c & -> & Hc). exists c. split; [done|lia].
Qed.

Lemma ordered_ranked (h : heap) : ordered h = true → ranked id h.
Proof.
  intros Hord a o Ho.
  eapply Forall_impl; [by apply (ordered_from_lookup h 0 a o)|].
  intros v (c & -> & Hc). simpl in Hc. exists c. split_and!; [done| |done].
  apply lookup_lt_is_Some. apply lookup_lt_Some in Ho. lia.
Qed.

Lemma ordered_acyclic (h : heap) : ordered h = true → acyclic h.
Proof. intros Hord. exists id. by apply ordered_ranked. Qed.

(** ** The contract of the visitor *)

Lemma postvisitor_at_most_once {R K W} (h : heap) (fn : combiner R K W)
  (kw : K) (fuel : nat) (expr : value) (w : W) :
  NoDup (inv_node <$>
           (visit_world (postvisitor h (traced fn) kw fuel expr (w, []))).2).
Proof.
  pose proof (postvisitor_logged h fn kw fuel expr w) as Hlog.
  destruct (postvisitor h (traced fn) kw fuel expr (w, [])) as [r wl|e wl|st];
    simpl; eapply well_logged_NoDup; apply Hlog.
Qed.

Lemma fuel_from {P : nat -> Prop} (k : nat) :
  (∀ f, P (k + f)) → ∀ fuel : nat, (k ≤ fuel)%nat → P fuel.
Proof. intros HP fuel Hk. replace fuel with (k + (fuel - k)) by lia. apply HP. Qed.

(** C2: on an acyclic graph the visitor returns what the combining
    function produces for the root.  For a function without effects that
    is the recursive postorder fold; for every function, the traversal
    stops, returning or propagating the function's exception, and every
    call it makes has the keyword arguments of the traversal, comes after
    the calls on the node's operands and is the only call on its node, and
    receives, in the order of the operand tuple, the results those calls
    returned; the value returned is the result of the call on the root. *)
Theorem postvisitor_postorder (h : heap) (root : addr) :
  acyclic h → is_Some (h !! root) →
  (∀ (R K W : Type) (f : addr -> list R -> K -> R) (kw : K) (w : W),
     ∃ (k n0 : nat) r,
       (∀ n : nat, (n0 ≤ n)%nat → fold f kw h n (VRef root) = Some r)
       ∧ ∀ fuel : nat, (k ≤ fuel)%nat →
           postvisitor h (pure_fn f) kw fuel (VRef root) w = Returned r w)
  ∧ (∀ (R K W : Type) (fn : combiner R K W) (kw : K) (w : W),
       (∃ k : nat, (∃ e w', ∀ fuel : nat, (k ≤ fuel)%nat →
                 postvisitor h fn kw fuel (VRef root) w = Raised e w')
             ∨ (∃ r w', ∀ fuel : nat, (k ≤ fuel)%nat →
                 postvisitor h fn kw fuel (VRef root) w = Returned r w'))
       ∧ ∀ fuel,
           let out := postvisitor h (traced fn) kw fuel (VRef root) (w, []) in
           (∀ l1 c l2, (visit_world out).2 = l1 ++ c :: l2 →
              inv_kwargs c = kw
              ∧ (inv_node c ∉ inv_node <$> l2)
              ∧ ∃ o, h !! inv_node c = Some o
                     ∧ Forall2 (fun v r => ∃ c', c' ∈ l2
                                                 ∧ v = VRef (inv_node c')
                                                 ∧ inv_result c' = Ok r)
                               (ob_operands o) (inv_args c))
           ∧ (∀ r wl, out = Returned r wl →
                ∃ c, c ∈ wl.2 ∧ inv_node c = root ∧ inv_result c = Ok r)).
Proof.
  intros [rank Hranked] Hroot. split.
  - intros R K W f kw w.
    destruct (postvisitor_fold f kw h rank Hranked root w Hroot)
      as (k & r & Hfold & Hrun).
    exists k, (S (rank root)), r. split.
    + intros n Hn. rewrite <- Hfold. apply (fold_fuel f kw h rank Hranked); lia.
    + by apply (fuel_from (P := fun fuel => postvisitor _ _ _ fuel _ _ = _)).
  - intros R K W fn kw w. split.
    + destruct (postvisitor_stops h fn kw rank Hranked (fun _ _ => True))
        with (root := root) (w := w)
        as [k [(e & w' & _ & Hrun)|(V' & r & w' & _ & _ & Hrun)]];
        [by intros; destruct (fn _ _ _ _)|done|done| |].
      * exists k. left. exists e, w'.
        by apply (fuel_from (P := fun fuel => postvisitor _ _ _ fuel _ _ = _)).
      * exists k. right. exists r, w'.
        by apply (fuel_from (P := fun fuel => postvisitor _ _ _ fuel _ _ = _)).
    + intros fuel out.
      pose proof (postvisitor_logged h fn kw fuel (VRef root) w) as Hlog.
      fold out in Hlog. split.
      * intros l1 c l2 Heq. apply (well_logged_call h kw l1 c l2).
        rewrite <- Heq. destruct out as [r wl|e wl|st]; apply Hlog.
      * intros r wl ->. destruct Hlog as (_ & _ & Hget). simpl in Hget.
        destruct (results wl.2 !! root) as [r'|] eqn:Hr; [|done].
        injection Hget as ->. by apply results_Some.
Qed.

(** ** More fuel does not change a traversal that stopped *)

Section Fuel.

Context {R K W : Type}.
Variable h : heap.
Variable fn : combiner R K W.
Variable kwargs : K.

Lemma while_loop_more (fuel f : nat) (st : vstate R W) :
  (∀ st', while_loop h fn kwargs fuel st ≠ OutOfFuel st') →
  while_loop h fn kwargs (fuel + f) st = while_loop h fn kwargs fuel st.
Proof.
  revert st. induction fuel as [|fuel IH]; intros st Hstop.
  - simpl in *. destruct st as [V [|node rest] rs w]; simpl in *.
    + apply while_loop_empty.
    + by destruct (Hstop (VState V (node :: rest) rs w)).
  - simpl in *. destruct (stack st) as [|node rest]; [done|].
    destruct (iteration h fn kwargs st node rest) as [st'|e w']; [|done].
    by apply IH.
Qed.

Lemma postvisitor_more (fuel f : nat) (expr : value) (w : W) :
  (∀ st, postvisitor h fn kwargs fuel expr w ≠ Running st) →
  postvisitor h fn kwargs (fuel + f) expr w
  = postvisitor h fn kwargs fuel expr w.
Proof.
  unfold postvisitor. intros Hstop. rewrite while_loop_more; [done|].
  intros st' Hst'. rewrite Hst' in Hstop. by destruct (Hstop st').
Qed.

End Fuel.

Lemma visit_of_more {R K W} (p : M value) (fn : heap -> combiner R K W)
  (kw : K) (fuel f : nat) (w : W) :
  (∀ st, visit_of p fn kw fuel w ≠ Running st) →
  visit_of p fn kw (fuel + f) w = visit_of p fn kw fuel w.
Proof.
  unfold visit_of. destruct (run_program p) as [expr h|e h]; [|done].
  apply postvisitor_more.
Qed.

(** Run a traversal of a concrete program on the fuel that suffices. *)
Ltac run_visit :=
  rewrite visit_of_more; [vm_compute; reflexivity | intros ?; vm_compute; discriminate].

(** The traversal of [2 + 3 * 4] with the function that counts the calls
    of a recursive traversal. *)
Lemma postvisitor_postorder_witness :
  acyclic arith_heap ∧ is_Some (arith_heap !! 4)
  ∧ ∃ (k n0 : nat) r,
      (∀ n : nat, (n0 ≤ n)%nat → fold paths tt arith_heap n (VRef 4) = Some r)
      ∧ ∀ fuel : nat, (k ≤ fuel)%nat →
          postvisitor arith_heap (pure_fn paths) tt fuel (VRef 4) tt
          = Returned r tt.
Proof.
  split; [apply ordered_acyclic; reflexivity|].
  split; [eexists; reflexivity|].
  apply (proj1 (postvisitor_postorder arith_heap 4
                  (ordered_acyclic arith_heap eq_refl)
                  (ex_intro _ _ eq_refl))
           nat unit unit paths tt tt).
Defined.

(** C1 (the code does otherwise on the example): in every traversal, of
    any graph and with any combining function, however it ends, no node is
    passed to the function twice.  The example of the claim cannot be
    built as it is written: [Number(5) + Number(1)] raises [TypeError],
    and so would [Mul(s, s)].  On the same graph built with the operand
    tuples, the traversal returns 36 and the counter of the shared node
    [s] (address 2) is 1; with two equal and distinct operands each is
    counted once. *)
Theorem shared_node_combined_once :
  (∀ (R K W : Type) (h : heap) (fn : combiner R K W) (kw : K) (fuel : nat)
     (expr : value) (w : W),
     NoDup (inv_node <$>
              (visit_world (postvisitor h (traced fn) kw fuel expr (w, []))).2))
  ∧ run_program shared_square
    = Raise TypeError [Object Number [] (Some (SInt 5));
                       Object Number [] (Some (SInt 1))]
  ∧ (∀ fuel : nat,
       visit_of shared_square (fun h => counted (evaluate h)) tt fuel (tt, ∅)
       = Raised TypeError (tt, ∅))
  ∧ (∀ fuel : nat,
       ∃ cnt : gmap addr nat,
         visit_of shared_square_seq (fun h => counted (evaluate h)) tt
                  (7 + fuel) (tt, ∅)
         = Returned 36%Q (tt, cnt)
         ∧ cnt !! 2 = Some 1 ∧ cnt !! 3 = Some 1)
  ∧ (∀ fuel : nat,
       ∃ cnt : gmap addr nat,
         visit_of distinct_square_seq (fun h => counted (evaluate h)) tt
                  (10 + fuel) (tt, ∅)
         = Returned 36%Q (tt, cnt)
         ∧ cnt !! 2 = Some 1 ∧ cnt !! 5 = Some 1).
Proof.
  split; [intros; apply postvisitor_at_most_once|].
  split; [reflexivity|]. split; [reflexivity|].
  split; intros fuel; eexists; (split; [run_visit|by vm_compute]).
Qed.

(** C8 (the code does otherwise): the expression cannot be built as it is
    written, [Number(3) * Number(4)] raises [TypeError] and nothing is
    visited.  On the same graph built with the operand tuples the visitor
    returns 14. *)
Theorem evaluate_two_plus_three_times_four :
  run_program two_plus_three_times_four
  = Raise TypeError [Object Number [] (Some (SInt 2));
                     Object Number [] (Some (SInt 3));
                     Object Number [] (Some (SInt 4))]
  ∧ (∀ (W : Type) (fuel : nat) (w : W),
       visit_of two_plus_three_times_four (fun h => evaluate h) tt fuel w
       = Raised TypeError w)
  ∧ (∀ (W : Type) (fuel : nat) (w : W),
       visit_of two_plus_three_times_four_seq (fun h => evaluate h) tt
                (7 + fuel) w
       = Returned 14%Q w).
Proof.
  split; [reflexivity|]. split; [reflexivity|]. intros W fuel w. run_visit.
Qed.

(** C9: when a call of the combining function raises, the traversal stops
    at that iteration with that very exception and with the caller's state
    as the call left it; the outcome carries nothing else, in particular
    not the dictionary.  So in the log of any traversal a call that raised
    is the newest call, and its exception is the outcome of the traversal.
    With the arithmetic function, which raises a lookup error at a
    [Symbol], the traversal of [Symbol('x')] plus one raises that error. *)
Theorem fn_exception_propagates :
  (∀ (R K W : Type) (h : heap) (fn : combiner R K W) (kw : K)
     (V : gmap addr R) (a : addr) (o : object) (args : list R)
     (rest : list value) (rs : list R) (w w' : W) (e : exn) (fuel : nat),
     V !! a = None → h !! a = Some o →
     forallb (in_visited V) (ob_operands o) = true →
     getitems V (ob_operands o) = Ok args →
     fn a args kw w = FnRaise e w' →
     while_loop h fn kw (S fuel) (VState V (VRef a :: rest) rs w) = Aborted e w')
  ∧ (∀ (R K W : Type) (h : heap) (fn : combiner R K W) (kw : K)
       (expr : value) (w : W) (fuel : nat) (c : invocation R K) (e : exn),
       c ∈ (visit_world (postvisitor h (traced fn) kw fuel expr (w, []))).2 →
       inv_result c = Error e →
       ∃ w0 w' l,
         postvisitor h (traced fn) kw fuel expr (w, []) = Raised e (w', c :: l)
         ∧ postvisitor h fn kw fuel expr w = Raised e w'
         ∧ fn (inv_node c) (inv_args c) kw w0 = FnRaise e w'
         ∧ Forall (fun c' => returned (inv_result c')) l)
  ∧ (∀ (W : Type) (fuel : nat) (w : W),
       visit_of symbol_plus_one_seq (fun h => evaluate h) tt (2 + fuel) w
       = Raised KeyError w).
Proof.
  split; [|split].
  - intros R K W h fn kw V a o args rest rs w w' e fuel HV Ho Hall Hargs Hfn.
    rewrite (while_loop_ready h fn kw fuel V a o args rest rs w HV Ho Hargs Hall).
    by rewrite Hfn.
  - intros R K W h fn kw expr w fuel c e Hc He.
    pose proof (postvisitor_logged h fn kw fuel expr w) as Hlog.
    pose proof (postvisitor_erase h fn kw fuel expr w []) as Herase.
    assert (Hno : ∀ l : list (invocation R K),
               Forall (fun c' => returned (inv_result c')) l → c ∈ l → False).
    { intros l Hl Hin. rewrite Forall_forall in Hl.
      specialize (Hl c Hin). by rewrite He in Hl. }
    destruct (postvisitor h (traced fn) kw fuel expr (w, [])) as [r wl|e' wl|st];
      simpl in Hc.
    + destruct Hlog as (_ & Hret & _). by destruct (Hno _ Hret Hc).
    + destruct Hlog as [_ [(c0 & l & w0 & Hwl & He' & Hl & Hfn)|Hret]];
        [|by destruct (Hno _ Hret Hc)].
      rewrite Hwl in Hc. apply elem_of_cons in Hc as [->|Hc];
        [|by destruct (Hno _ Hl Hc)].
      rewrite He in He'. injection He' as <-.
      exists w0, wl.1, l. split_and!; [|by rewrite <- Herase|done|done].
      destruct wl as [w1 log1]. simpl in Hwl. by rewrite Hwl.
    + destruct Hlog as (_ & Hret & _). by destruct (Hno _ Hret Hc).
  - intros W fuel w. run_visit.
Qed.

(** The call on [Symbol('x')] raises [KeyError], and so does the
    traversal of [Symbol('x')] plus one. *)
Lemma fn_exception_propagates_witness :
  Invocation 0 [] tt (Error KeyError)
    ∈ (visit_world (postvisitor symbol_heap (traced (evaluate symbol_heap)) tt 2
                                (VRef 2) (tt, []))).2
  ∧ ∃ (w0 w' : unit) l,
      postvisitor symbol_heap (traced (evaluate symbol_heap)) tt 2 (VRef 2) (tt, [])
      = Raised KeyError (w', Invocation 0 [] tt (Error KeyError) :: l)
      ∧ postvisitor symbol_heap (evaluate symbol_heap) tt 2 (VRef 2) tt
        = Raised KeyError w'
      ∧ evaluate symbol_heap 0 [] tt w0 = FnRaise KeyError w'
      ∧ Forall (fun c' => returned (inv_result c')) l.
Proof.
  split; [vm_compute; apply list_elem_of_here|].
  apply (proj1 (proj2 fn_exception_propagates) Q unit unit symbol_heap
           (evaluate symbol_heap) tt (VRef 2) tt 2
           (Invocation 0 [] tt (Error KeyError)) KeyError).
  - vm_compute. apply list_elem_of_here.
  - reflexivity.
Defined.

(** ** The chain of nested additions *)

Lemma chain_heap_length (n : nat) : length (chain_heap n) = S (2 * n).
Proof.
  induction n as [|n IH]; [done|]. simpl chain_heap.
  rewrite length_app, IH. simpl. lia.
Qed.

Lemma run_chain (n : nat) :
  run_program (chain n) = Return (VRef (2 * n)) (chain_heap n).
Proof.
  unfold run_program. induction n as [|n IH]; [done|].
  simpl chain. unfold bind. rewrite IH.
  rewrite (call_Number_accepted (VInt 1) (SInt 1)) by done.
  rewrite call_operator_tuple by done.
  rewrite length_app, chain_heap_length. simpl chain_heap.
  rewrite <- app_assoc. simpl. do 2 f_equal. lia.
Qed.

Lemma chain_heap_lookup (n : nat) (a : addr) (o : object) :
  chain_heap n !! a = Some o →
  (o = one_object ∧ (a = 0 ∨ ∃ i, a = S (2 * i)))
  ∨ (∃ i, i < n ∧ a = 2 * S i
          ∧ o = Object Add [VRef (S (2 * i)); VRef (2 * i)] None).
Proof.
  revert a o. induction n as [|n IH]; intros a o.
  - destruct a as [|a]; [|done]. intros [= <-]. left. by split; [|left].
  - simpl chain_heap. rewrite lookup_app_Some, chain_heap_length.
    intros [Ha|[Hlen Ha]].
    + destruct (IH a o Ha) as [?|(i & Hi & ? & ?)]; [by left|].
      right. exists i. split_and!; [lia|done|done].
    + destruct (a - S (2 * n)) as [|[|d]] eqn:Hd; simpl in Ha; [| |done].
      * injection Ha as <-. left. split; [done|]. right. exists n. lia.
      * injection Ha as <-. right. exists n. split_and!; [lia|lia|done].
Qed.

Lemma chain_heap_ranked (n : nat) : ranked id (chain_heap n).
Proof.
  intros a o [[-> _]|(i & Hi & -> & ->)]%chain_heap_lookup; simpl.
  - constructor.
  - repeat constructor.
    + exists (S (2 * i)). split_and!; [done| |simpl; lia].
      apply lookup_lt_is_Some. rewrite chain_heap_length. lia.
    + exists (2 * i). split_and!; [done| |simpl; lia].
      apply lookup_lt_is_Some. rewrite chain_heap_length. lia.
Qed.

Lemma chain_value_literal (a : addr) :
  a = 0 ∨ (∃ i, a = S (2 * i)) → chain_value a = 1%Q.
Proof.
  unfold chain_value. intros [->|[i ->]]; [done|].
  by rewrite Nat.even_succ, Nat.odd_even.
Qed.

Lemma chain_value_even (i : nat) :
  chain_value (2 * i) = (Z.of_nat i + 1) # 1.
Proof.
  unfold chain_value. by rewrite Nat.even_even, Nat.div2_double.
Qed.

Lemma Qred_one_plus (z : Z) : Qred (1 + (z # 1)) = (z + 1) # 1.
Proof.
  rewrite <- (Qcanon.Qred_identity ((z + 1) # 1)) by apply Z.gcd_1_r.
  apply Qred_complete. unfold Qeq. simpl. lia.
Qed.

(** The arithmetic function returns the value of each node of the chain
    from the values of its operands. *)
Lemma evaluate_chain {W} (n : nat) (V : gmap addr Q) (a : addr) (o : object)
  (args : list Q) (w : W) :
  (∀ c r, V !! c = Some r → r = chain_value c) →
  chain_heap n !! a = Some o →
  getitems V (ob_operands o) = Ok args →
  evaluate (chain_heap n) a args tt w = FnReturn (chain_value a) w.
Proof.
  intros HV Ho Hargs. unfold evaluate, evaluate_node. rewrite Ho.
  destruct (chain_heap_lookup n a o Ho) as [[-> Ha]|(i & Hi & -> & ->)].
  - rewrite (chain_value_literal a Ha). reflexivity.
  - apply getitems_Forall2 in Hargs. cbn [ob_operands] in Hargs.
    apply Forall2_cons_inv_l in Hargs
      as (r1 & args1 & (a1 & [= <-] & Hr1) & Hargs & ->).
    apply Forall2_cons_inv_l in Hargs
      as (r2 & args2 & (a2 & [= <-] & Hr2) & ->%Forall2_nil_inv_l & ->).
    apply HV in Hr1, Hr2.
    assert (r1 = 1%Q) as ->
      by (rewrite Hr1; apply chain_value_literal; right; by exists i).
    assert (r2 = (Z.of_nat i + 1) # 1) as ->
      by (rewrite Hr2; apply chain_value_even).
    cbn [ob_type]. rewrite Qred_one_plus, chain_value_even.
    do 2 f_equal. lia.
Qed.

Lemma chain_heap_zero (n : nat) : chain_heap n !! 0 = Some one_object.
Proof.
  induction n as [|n IH]; [done|]. cbn [chain_heap].
  rewrite lookup_app_l; [done|]. rewrite chain_heap_length. lia.
Qed.

Lemma chain_heap_literal (n i : nat) :
  i < n → chain_heap n !! S (2 * i) = Some one_object.
Proof.
  induction n as [|n IH]; [lia|]. intros Hi. cbn [chain_heap].
  destruct (decide (i = n)) as [->|Hne].
  - rewrite lookup_app_r by (rewrite chain_heap_length; lia).
    rewrite chain_heap_length. by replace (S (2 * n) - S (2 * n)) with 0 by lia.
  - rewrite lookup_app_l by (rewrite chain_heap_length; lia).
    apply IH. lia.
Qed.

Lemma chain_heap_Add (n i : nat) :
  i < n →
  chain_heap n !! (2 * S i)
  = Some (Object Add [VRef (S (2 * i)); VRef (2 * i)] None).
Proof.
  induction n as [|n IH]; [lia|]. intros Hi. cbn [chain_heap].
  destruct (decide (i = n)) as [->|Hne].
  - rewrite lookup_app_r by (rewrite chain_heap_length; lia).
    rewrite chain_heap_length. by replace (2 * S n - S (2 * n)) with 1 by lia.
  - rewrite lookup_app_l by (rewrite chain_heap_length; lia).
    apply IH. lia.
Qed.

Lemma str_chain_literal (float_repr : spec_float -> string) (n d i : nat) :
  i < n →
  str float_repr d (chain_heap n) (S (2 * i))
  = match d with
    | 0 => Error RecursionError
    | S _ => Ok "1"
    end.
Proof.
  intros Hi. destruct d as [|d]; [done|].
  cbn [str]. by rewrite chain_heap_literal by lia.
Qed.

(** [__str__] recurses on the call stack: on the chain it needs a depth
    above the number of nested additions, and raises [RecursionError]
    below it.  The loop of the visitor has no such limit. *)
Lemma str_chain (float_repr : spec_float -> string) (n d i : nat) :
  (i ≤ n)%nat →
  str float_repr d (chain_heap n) (2 * i)
  = if (d <=? i)%nat then Error RecursionError else Ok (chain_str i).
Proof.
  revert i. induction d as [|d IH]; intros i Hi; [done|].
  destruct i as [|i].
  - cbn [str]. change (2 * 0) with 0. by rewrite chain_heap_zero.
  - cbn [str]. rewrite chain_heap_Add by lia.
    cbn [ob_type is_terminal]. unfold Operator.__str__.
    cbn [ob_operands ob_type].
    assert (Hleft : node_of (chain_heap n) (VRef (S (2 * i)))
                    = Ok (S (2 * i), one_object)).
    { unfold node_of. by rewrite chain_heap_literal by lia. }
    assert (Hright : ∃ o, node_of (chain_heap n) (VRef (2 * i)) = Ok (2 * i, o)
                          ∧ prec_lt (precedence (ob_type o)) (Finite 1) = false).
    { unfold node_of. destruct i as [|i].
      - exists one_object. change (2 * 0) with 0.
        by rewrite chain_heap_zero.
      - eexists. rewrite chain_heap_Add by lia. done. }
    destruct Hright as (o & Ho & Hprec).
    rewrite Hleft, Ho.
    cbn [result_bind fst snd one_object ob_type precedence prec_lt].
    rewrite Hprec, str_chain_literal, (IH i) by lia.
    destruct d as [|d]; [done|].
    change (S (S d) <=? S i)%nat with (S d <=? i)%nat.
    by destruct (S d <=? i)%nat.
Qed.

(** C3, as stated, fails: a chain of one [Add] node over [Number(1)] has
    two literals, and the traversal returns 2, not 1; a chain of three
    [Add] nodes returns 4, not 3. *)
Lemma chain_of_one_Add_returns_two :
  run_program (chain 1)
  = Return (VRef 2) [Object Number [] (Some (SInt 1));
                     Object Number [] (Some (SInt 1));
                     Object Add [VRef 1; VRef 0] None]
  ∧ visit_of (chain 1) (fun h => evaluate h) tt 4 tt = Returned 2%Q tt
  ∧ visit_of (chain 1) (fun h => evaluate h) tt 4 tt ≠ Returned 1%Q tt
  ∧ visit_of (chain 3) (fun h => evaluate h) tt 10 tt = Returned 4%Q tt
  ∧ visit_of (chain 3) (fun h => evaluate h) tt 10 tt ≠ Returned 3%Q tt.
Proof. repeat split; discriminate. Qed.

(** C3, amended: for every [N], the right-leaning chain of [N] nested
    [Add] nodes over [Number(1)] is traversed to the end by the loop of
    the visitor, whose only stack is the list [stack]; with the arithmetic
    function the traversal returns [N + 1], the sum of the [N + 1]
    literals of the chain. *)
Theorem chain_visited (N : nat) (W : Type) (w : W) :
  ∃ k : nat, ∀ fuel : nat, (k ≤ fuel)%nat →
    visit_of (chain N) (fun h => evaluate h) tt fuel w
    = Returned ((Z.of_nat N + 1) # 1) w.
Proof.
  unfold visit_of. rewrite run_chain.
  destruct (postvisitor_stops (chain_heap N) (evaluate (chain_heap N)) tt id
              (chain_heap_ranked N)
              (fun V w' => w' = w ∧ ∀ c r, V !! c = Some r → r = chain_value c))
    with (root := 2 * N) (w := w)
    as [k [(e & w' & (V0 & w0 & a & o & args & [_ HV0] & Ho & _ & Hargs & Hfn) & _)
          |(V' & r & w' & [-> HV'] & Hr & Hrun)]].
  - intros V w0 a o args [-> HV] Ho _ Hargs.
    rewrite (evaluate_chain N V a o args w HV Ho Hargs).
    split; [done|]. intros c r. rewrite lookup_insert.
    case_decide as Hc; [by intros [= <-]; subst|by apply HV].
  - apply lookup_lt_is_Some. rewrite chain_heap_length. lia.
  - split; [done|]. intros c r. by rewrite lookup_empty.
  - by rewrite (evaluate_chain N V0 a o args w0 HV0 Ho Hargs) in Hfn.
  - exists k. apply (fuel_from (P := fun fuel => postvisitor _ _ _ fuel _ _ = _)).
    intros f. rewrite Hrun. f_equal.
    rewrite (HV' _ _ Hr). apply chain_value_even.
Qed.

(** * Further properties of construction *)

(** X1: [Symbol] accepts a payload exactly when it is a string: it then
    allocates one node that stores the string; every other payload,
    numbers and booleans included, raises [ValueError] and allocates
    nothing. *)
Theorem Symbol_accepts_exactly_str :
  (∀ (s : string) (h : heap),
     call Symbol [VStr s] h
     = Return (VRef (length h)) (h ++ [Object Symbol [] (Some (SStr s))]))
  ∧ (∀ (v : value) (h : heap),
       (∀ s, v ≠ VStr s) → call Symbol [v] h = Raise ValueError h)
  ∧ (∀ (v : value) (h : heap),
       (∃ e h', call Symbol [v] h = Raise e h') ↔ ∀ s, v ≠ VStr s).
Proof.
  assert (Hrej : ∀ (v : value) (h : heap),
             (∀ s, v ≠ VStr s) → call Symbol [v] h = Raise ValueError h).
  { intros v h Hv. apply call_Symbol_rejected.
    destruct (isinstance v [T_str]) eqn:Hi; [|done].
    apply isinstance_text in Hi as [s ->]. by destruct (Hv s). }
  split; [done|]. split; [done|].
  intros v h. split.
  - intros (e & h' & Hc) s ->. discriminate.
  - intros Hv. exists ValueError, h. by apply Hrej.
Qed.

Lemma ordered_from_app (a : addr) (l1 l2 : list object) :
  ordered_from a (l1 ++ l2)
  = ordered_from a l1 && ordered_from (a + length l1) l2.
Proof.
  revert a. induction l1 as [|o l1 IH]; intros a; simpl.
  - by rewrite Nat.add_0_r.
  - rewrite IH. replace (a + S (length l1)) with (S a + length l1) by lia.
    by rewrite andb_assoc.
Qed.

Lemma init_terminal (k : klass) (args : list value) (operands : list value)
  (val : option scalar) :
  is_terminal k = true → init k args = Ok (operands, val) → operands = [].
Proof.
  destruct k; try done; intros _; simpl;
    destruct args as [|v [|? ?]]; try done.
  - unfold Number.__init__.
    destruct (negb _); [done|]. destruct (as_scalar v); [|done].
    by intros [= <- _].
  - unfold Symbol.__init__.
    destruct (negb _); [done|]. destruct (as_scalar v); [|done].
    by intros [= <- _].
Qed.

(** X2: construction keeps the store acyclic and never touches a node
    that exists.  When a terminal, or an operator given the tuple of its
    operands, all of them nodes of the store, is constructed in a store
    where operands come before their parents, the result is a new
    reference, the old store is a prefix of the new one, and the new store
    is again ordered, hence acyclic. *)
Theorem construction_keeps_order (k : klass) (args : list value) (h h' : heap)
  (v : value) :
  ordered h = true →
  (is_terminal k = true
   ∨ ∃ items, args = [VTuple items]
              ∧ forallb (earlier (length h)) items = true) →
  call k args h = Return v h' →
  v = VRef (length h)
  ∧ (∃ o, h' = h ++ [o] ∧ ob_type o = k)
  ∧ (∀ a o, h !! a = Some o → h' !! a = Some o)
  ∧ ordered h' = true
  ∧ acyclic h'.
Proof.
  intros Hord Hargs. unfold call.
  destruct (init k args) as [[operands val]|e] eqn:Hinit; [|done].
  intros [= <- <-].
  assert (Hops : forallb (earlier (length h)) operands = true).
  { destruct Hargs as [Hk|(items & -> & Hitems)].
    - by rewrite (init_terminal k args operands val Hk Hinit).
    - destruct k; try (by vm_compute in Hinit);
        simpl in Hinit; by injection Hinit as <- _. }
  assert (Hord' : ordered (h ++ [Object k operands val]) = true).
  { unfold ordered in *. rewrite ordered_from_app, Hord. simpl.
    by rewrite Hops. }
  split_and!; [done|by eexists| |done|by apply ordered_acyclic].
  intros a o Ho. by apply lookup_app_l_Some.
Qed.

(** A product of a node with itself, built in the store of [Symbol('x')]. *)
Lemma construction_keeps_order_witness :
  ordered [Object Symbol [] (Some (SStr "x"))] = true
  ∧ call Mul [VTuple [VRef 0; VRef 0]] [Object Symbol [] (Some (SStr "x"))]
    = Return (VRef 1) [Object Symbol [] (Some (SStr "x"));
                       Object Mul [VRef 0; VRef 0] None]
  ∧ ordered [Object Symbol [] (Some (SStr "x"));
             Object Mul [VRef 0; VRef 0] None] = true.
Proof.
  split; [reflexivity|]. split; [reflexivity|].
  apply (construction_keeps_order Mul [VTuple [VRef 0; VRef 0]]
           [Object Symbol [] (Some (SStr "x"))] _ (VRef 1)).
  - reflexivity.
  - right. exists [VRef 0; VRef 0]. split; reflexivity.
  - reflexivity.
Defined.

(** X3: a raw operand that is neither a node nor an [int] or [float]
    (text, [None], a tuple) makes each of the ten arithmetic methods raise
    [ValueError], from [Number], before any operator class is called; the
    store is unchanged. *)
Theorem arithmetic_rejects_raw_operand (self other : value) (h : heap) :
  isinstance other [T_Expression] = false →
  isinstance other [T_int; T_float] = false →
  Arithmetic.__add__ self other h = Raise ValueError h
  ∧ Arithmetic.__radd__ self other h = Raise ValueError h
  ∧ Arithmetic.__sub__ self other h = Raise ValueError h
  ∧ Arithmetic.__rsub__ self other h = Raise ValueError h
  ∧ Arithmetic.__mul__ self other h = Raise ValueError h
  ∧ Arithmetic.__rmul__ self other h = Raise ValueError h
  ∧ Arithmetic.__truediv__ self other h = Raise ValueError h
  ∧ Arithmetic.__rtruediv__ self other h = Raise ValueError h
  ∧ Arithmetic.__pow__ self other h = Raise ValueError h
  ∧ Arithmetic.__rpow__ self other h = Raise ValueError h.
Proof.
  intros Hexpr Hnum.
  assert (Hn : call Number [other] h = Raise ValueError h)
    by (by apply call_Number_rejected).
  assert (Hc : coerce other h = Raise ValueError h).
  { unfold coerce. by rewrite Hexpr. }
  unfold Arithmetic.__radd__, Arithmetic.__rmul__, Arithmetic.__add__,
    Arithmetic.__sub__, Arithmetic.__rsub__, Arithmetic.__mul__,
    Arithmetic.__truediv__, Arithmetic.__rtruediv__, Arithmetic.__pow__,
    Arithmetic.__rpow__, bind.
  by rewrite Hn, Hc.
Qed.

(** ["text" - x] for [x = Symbol('x')]. *)
Lemma arithmetic_rejects_raw_operand_witness :
  isinstance (VStr "text") [T_Expression] = false
  ∧ isinstance (VStr "text") [T_int; T_float] = false
  ∧ Arithmetic.__rsub__ (VRef 0) (VStr "text")
      [Object Symbol [] (Some (SStr "x"))]
    = Raise ValueError [Object Symbol [] (Some (SStr "x"))].
Proof.
  split; [reflexivity|]. split; [reflexivity|].
  apply (arithmetic_rejects_raw_operand (VRef 0) (VStr "text")
           [Object Symbol [] (Some (SStr "x"))]); reflexivity.
Defined.

(** X4: with a node as the other operand nothing is wrapped: the forward
    methods and the reversed addition and multiplication raise the
    [TypeError] of the operator call and leave the store as it is; the
    reversed subtraction, division and power pass the node to [Number],
    which raises [ValueError]. *)
Theorem arithmetic_on_two_nodes (self : value) (a : addr) (h : heap) :
  Arithmetic.__add__ self (VRef a) h = Raise TypeError h
  ∧ Arithmetic.__radd__ self (VRef a) h = Raise TypeError h
  ∧ Arithmetic.__sub__ self (VRef a) h = Raise TypeError h
  ∧ Arithmetic.__mul__ self (VRef a) h = Raise TypeError h
  ∧ Arithmetic.__rmul__ self (VRef a) h = Raise TypeError h
  ∧ Arithmetic.__truediv__ self (VRef a) h = Raise TypeError h
  ∧ Arithmetic.__pow__ self (VRef a) h = Raise TypeError h
  ∧ Arithmetic.__rsub__ self (VRef a) h = Raise ValueError h
  ∧ Arithmetic.__rtruediv__ self (VRef a) h = Raise ValueError h
  ∧ Arithmetic.__rpow__ self (VRef a) h = Raise ValueError h.
Proof. repeat split; reflexivity. Qed.

(** * Further properties of rendering *)

Lemma string_app_assoc (a b c : string) : (a +:+ b) +:+ c = a +:+ (b +:+ c).
Proof.
  induction a as [|x a IH]; [done|].
  change (String x ((a +:+ b) +:+ c) = String x (a +:+ (b +:+ c))).
  by rewrite IH.
Qed.

Lemma prec_lt_irrefl (p : prec) : prec_lt p p = false.
Proof. destruct p; [apply Z.ltb_irrefl|done]. Qed.

Lemma lookup_new (h : heap) (o : object) : (h ++ [o]) !! length h = Some o.
Proof. by apply list_lookup_middle. Qed.

(** X5: an operator class accepts a tuple of any length, and [str] of
    the node raises [ValueError] unless there are exactly two operands. *)
Theorem str_needs_two_operands (float_repr : spec_float -> string) (d : nat)
  (k : klass) (items : list value) (h : heap) :
  is_terminal k = false → length items ≠ 2 →
  ∃ h', call k [VTuple items] h = Return (VRef (length h)) h'
        ∧ str float_repr (S d) h' (length h) = Error ValueError.
Proof.
  intros Hk Hlen. rewrite call_operator_tuple by done.
  eexists. split; [done|]. cbn [str]. rewrite lookup_new.
  cbn [ob_type]. rewrite Hk. unfold Operator.__str__. cbn [ob_operands].
  by destruct items as [|x [|y [|z items]]].
Qed.

(** [str(Add((x, x, x)))] for [x = Symbol('x')]. *)
Lemma str_needs_two_operands_witness :
  is_terminal Add = false ∧ length [VRef 0; VRef 0; VRef 0] ≠ 2
  ∧ ∃ h', call Add [VTuple [VRef 0; VRef 0; VRef 0]]
               [Object Symbol [] (Some (SStr "x"))]
          = Return (VRef 1) h'
          ∧ str (fun _ => "") 1 h' 1 = Error ValueError.
Proof.
  split; [reflexivity|]. split; [simpl; lia|].
  apply (str_needs_two_operands (fun _ => "") 0 Add [VRef 0; VRef 0; VRef 0]
           [Object Symbol [] (Some (SStr "x"))]); [reflexivity|simpl; lia].
Defined.

Lemma Operator_str_mono (f g : addr -> result string) (h : heap)
  (self : object) (s : string) :
  (∀ a t, f a = Ok t → g a = Ok t) →
  Operator.__str__ f h self = Ok s → Operator.__str__ g h self = Ok s.
Proof.
  intros Hfg. unfold Operator.__str__.
  destruct (ob_operands self) as [|x [|y [|? ?]]]; try done.
  destruct (node_of h x) as [[al ol]|e]; [|done]. cbn [result_bind fst snd].
  destruct (f al) as [sl|e] eqn:Hl; [|by destruct (prec_lt _ _)].
  rewrite (Hfg al sl Hl).
  destruct (node_of h y) as [[ar or]|e]; [|by destruct (prec_lt _ _)].
  cbn [result_bind fst snd].
  destruct (f ar) as [sr|e] eqn:Hr;
    [|by destruct (prec_lt _ _), (prec_lt _ _)].
  by rewrite (Hfg ar sr Hr).
Qed.

Lemma str_mono (float_repr : spec_float -> string) (h : heap) (d d' : nat)
  (a : addr) (s : string) :
  str float_repr d h a = Ok s → (d ≤ d')%nat → str float_repr d' h a = Ok s.
Proof.
  revert d' a s. induction d as [|d IH]; intros d' a s; [done|].
  intros Hs Hd. destruct d' as [|d']; [lia|]. cbn [str] in *.
  destruct (h !! a) as [self|]; [|done].
  destruct (is_terminal (ob_type self)); [done|].
  eapply Operator_str_mono; [|done].
  intros c t Hc. apply IH; [done|lia].
Qed.

(** X6: a text that [str] produces within some recursion depth is the
    text it produces within every greater depth. *)
Theorem str_deeper (float_repr : spec_float -> string) (h : heap) (d d' : nat)
  (a : addr) (s : string) :
  str float_repr d h a = Ok s → (d ≤ d')%nat → str float_repr d' h a = Ok s.
Proof. apply str_mono. Qed.

(** [str] of [(x + y) * z] within three calls and within ten. *)
Lemma str_deeper_witness :
  str (fun _ => "") 3 sum_times_heap 4 = Ok "(x + y) * z"
  ∧ (3 ≤ 10)%nat
  ∧ str (fun _ => "") 10 sum_times_heap 4 = Ok "(x + y) * z".
Proof.
  split; [reflexivity|]. split; [lia|].
  apply (str_deeper (fun _ => "") sum_times_heap 3 10 4 "(x + y) * z");
    [reflexivity|lia].
Defined.

Lemma int_str_within (z : Z) :
  (int_digits z ≤ int_max_str_digits)%nat →
  int_str z = Ok (NilZero.string_of_int (Z.to_int z)).
Proof.
  intros Hz. unfold int_str.
  by rewrite (proj2 (Nat.ltb_ge _ _) Hz).
Qed.

Lemma int_str_beyond (z : Z) :
  (int_max_str_digits < int_digits z)%nat → int_str z = Error ValueError.
Proof.
  intros Hz. unfold int_str. by rewrite (proj2 (Nat.ltb_lt _ _) Hz).
Qed.

(** [str] of a payload is a text, unless the payload is an [int] beyond
    the limit. *)
Lemma scalar_str_total (float_repr : spec_float -> string) (v : scalar) :
  (∀ z, v = SInt z → (int_digits z ≤ int_max_str_digits)%nat) →
  ∃ s, scalar_str float_repr v = Ok s.
Proof.
  intros Hv. destruct v as [|[]|z|f|t]; simpl; try by eauto.
  rewrite int_str_within by by apply Hv. by eauto.
Qed.

Lemma scalar_repr_total (float_repr : spec_float -> string)
  (str_repr : string -> string) (v : scalar) :
  (∀ z, v = SInt z → (int_digits z ≤ int_max_str_digits)%nat) →
  ∃ s, scalar_repr float_repr str_repr v = Ok s.
Proof.
  intros Hv. destruct v as [|b|z|f|t];
    try (by apply (scalar_str_total float_repr)).
  simpl. by eauto.
Qed.

(** X7: rendering cannot fail on a well-formed graph of printable
    payloads.  In a store where operands come before their parents,
    terminals have their payload, none of them an [int] of more digits than
    the interpreter converts to text, and operators have two operands,
    every node has a text, produced within every recursion depth above the
    address of the node. *)
Theorem str_total (float_repr : spec_float -> string) (h : heap) (a : addr) :
  ordered h = true → plain h → printable h → is_Some (h !! a) →
  ∃ s, ∀ d : nat, a < d → str float_repr d h a = Ok s.
Proof.
  intros Hord Hplain Hprint. induction a as [a IH] using lt_wf_ind.
  intros [o Ho].
  pose proof (Hplain a o Ho) as Hp.
  destruct (is_terminal (ob_type o)) eqn:Ht.
  - destruct Hp as [v Hv].
    destruct (scalar_str_total float_repr v) as [s Hs].
    { intros z ->. by eapply Hprint. }
    exists s. intros d Hd. destruct d as [|d]; [lia|].
    rewrite <- Hs. by eapply str_terminal.
  - pose proof (ordered_from_lookup h 0 a o Hord Ho) as Hops.
    destruct (ob_operands o) as [|x [|y [|? ?]]] eqn:Hoo; try done.
    apply Forall_cons in Hops as [(l & -> & Hl) Hops].
    apply Forall_cons in Hops as [(r & -> & Hr) _]. simpl in Hl, Hr.
    pose proof (lookup_lt_Some _ _ _ Ho) as Ha.
    assert (Hol : is_Some (h !! l)) by (apply lookup_lt_is_Some; lia).
    assert (Hor : is_Some (h !! r)) by (apply lookup_lt_is_Some; lia).
    destruct (IH l Hl Hol) as [sl Hsl], (IH r Hr Hor) as [sr Hsr].
    destruct Hol as [cl Hcl], Hor as [cr Hcr].
    destruct (symbol_operator _ Ht) as [sym Hsym].
    eexists. intros d Hd. destruct d as [|d]; [lia|].
    eapply (str_operator float_repr d h a l r o cl cr sl sr sym); try done.
    + apply Hsl. lia.
    + apply Hsr. lia.
Qed.

Lemma arith_heap_plain : plain arith_heap.
Proof.
  intros a o Ho.
  do 5 (destruct a as [|a]; [injection Ho as <-; simpl; by eauto|]).
  done.
Qed.

Lemma arith_heap_printable : printable arith_heap.
Proof.
  intros a o z Ho Hz.
  do 5 (destruct a as [|a];
        [injection Ho as <-; simpl in Hz; try done; injection Hz as <-;
         apply Nat.leb_le; reflexivity|]).
  done.
Qed.

(** Every node of the store of [2 + 3 * 4] has a text. *)
Lemma str_total_witness :
  ordered arith_heap = true ∧ plain arith_heap ∧ printable arith_heap
  ∧ is_Some (arith_heap !! 4)
  ∧ str (fun _ => "") 5 arith_heap 4 = Ok "2 + 3 * 4"
  ∧ ∃ s, ∀ d : nat, 4 < d → str (fun _ => "") d arith_heap 4 = Ok s.
Proof.
  split; [reflexivity|]. split; [apply arith_heap_plain|].
  split; [apply arith_heap_printable|].
  split; [by eexists|]. split; [reflexivity|].
  apply (str_total (fun _ => "") arith_heap 4);
    [reflexivity|apply arith_heap_plain|apply arith_heap_printable
    |by eexists].
Defined.

Lemma str_Ok_lookup (float_repr : spec_float -> string) (d : nat) (h : heap)
  (a : addr) (s : string) :
  str float_repr d h a = Ok s → is_Some (h !! a).
Proof.
  destruct d as [|d]; [done|]. cbn [str]. by destruct (h !! a); [eauto|].
Qed.

(** X8: the text does not tell the two groupings of operators of equal
    precedence apart.  A right operand of the same precedence gets no
    parentheses, so [k1(a, k2(b, c))] has the text of [k2(k1(a, b), c)]:
    [a - (b - c)] renders as [a - b - c]. *)
Theorem str_conflates_groupings (float_repr : spec_float -> string) (d : nat)
  (h : heap) (k1 k2 : klass) (x y x' y' a b c : addr)
  (vx vy vx' vy' : option scalar) (sa sb sc : string) :
  is_terminal k1 = false → precedence k1 = precedence k2 →
  h !! x = Some (Object k1 [VRef a; VRef y] vx) →
  h !! y = Some (Object k2 [VRef b; VRef c] vy) →
  h !! x' = Some (Object k2 [VRef y'; VRef c] vx') →
  h !! y' = Some (Object k1 [VRef a; VRef b] vy') →
  str float_repr d h a = Ok sa → str float_repr d h b = Ok sb →
  str float_repr d h c = Ok sc →
  ∃ s, str float_repr (S (S d)) h x = Ok s
       ∧ str float_repr (S (S d)) h x' = Ok s.
Proof.
  intros Hk1 Hprec Hx Hy Hx' Hy' Hsa Hsb Hsc.
  assert (Hk2 : is_terminal k2 = false) by (by destruct k1, k2).
  destruct (str_Ok_lookup _ _ _ _ _ Hsa) as [oa Hoa].
  destruct (str_Ok_lookup _ _ _ _ _ Hsb) as [ob Hob].
  destruct (str_Ok_lookup _ _ _ _ _ Hsc) as [oc Hoc].
  destruct (symbol_operator _ Hk1) as [s1 Hs1].
  destruct (symbol_operator _ Hk2) as [s2 Hs2].
  pose proof (str_mono float_repr h d (S d) a sa Hsa (Nat.le_succ_diag_r d))
    as Hsa'.
  pose proof (str_mono float_repr h d (S d) c sc Hsc (Nat.le_succ_diag_r d))
    as Hsc'.
  pose proof (str_operator float_repr d h y b c _ ob oc sb sc s2
                Hy Hk2 eq_refl Hob Hoc Hsb Hsc Hs2) as Hsy.
  pose proof (str_operator float_repr d h y' a b _ oa ob sa sb s1
                Hy' Hk1 eq_refl Hoa Hob Hsa Hsb Hs1) as Hsy'.
  pose proof (str_operator float_repr (S d) h x a y _ oa _ sa _ s1
                Hx Hk1 eq_refl Hoa Hy Hsa' Hsy Hs1) as Hsx.
  pose proof (str_operator float_repr (S d) h x' y' c _ _ oc _ sc s2
                Hx' Hk2 eq_refl Hy' Hoc Hsy' Hsc' Hs2) as Hsx'.
  cbn [ob_type] in Hsx, Hsx'. rewrite <- Hprec in Hsx, Hsx'.
  rewrite prec_lt_irrefl in Hsx, Hsx'. cbn [wrapped] in Hsx, Hsx'.
  eexists. split; [exact Hsx|]. rewrite Hsx'. f_equal.
  by rewrite !string_app_assoc.
Qed.

(** [a - (b - c)] and [(a - b) - c] both render as [a - b - c]. *)
Lemma str_conflates_groupings_witness :
  str (fun _ => "") 3 difference_heap 4 = Ok "a - b - c"
  ∧ str (fun _ => "") 3 difference_heap 6 = Ok "a - b - c"
  ∧ ∃ s, str (fun _ => "") 3 difference_heap 4 = Ok s
         ∧ str (fun _ => "") 3 difference_heap 6 = Ok s.
Proof.
  split; [reflexivity|]. split; [reflexivity|].
  apply (str_conflates_groupings (fun _ => "") 1 difference_heap Sub Sub
           4 3 6 5 0 1 2 None None None None "a" "b" "c");
    reflexivity.
Defined.

Lemma map_result_total {A B} (f : nat -> A -> result B) (n : nat) (l : list A) :
  Forall (fun v => ∃ s, ∀ d : nat, (n ≤ d)%nat → f d v = Ok s) l →
  ∃ ss, ∀ d : nat, (n ≤ d)%nat → map_result (f d) l = Ok ss.
Proof.
  induction 1 as [|v l [s Hs] _ [ss Hss]].
  - by exists [].
  - exists (s :: ss). intros d Hd. simpl. by rewrite (Hs d Hd), (Hss d Hd).
Qed.

(** X9: the structural text exists for every node of an ordered store
    whose terminals have their payload, none of them an [int] of more
    digits than the interpreter converts to text, whatever the number of
    operands of its operators (where [str] needs exactly two): [repr]
    returns the same text within every recursion depth above twice the
    address of the node plus one. *)
Theorem repr_total (float_repr : spec_float -> string)
  (str_repr : string -> string) (h : heap) (a : addr) :
  ordered h = true →
  (∀ c o, h !! c = Some o → is_terminal (ob_type o) = true →
          is_Some (ob_value o)) →
  printable h →
  is_Some (h !! a) →
  ∃ s, ∀ d : nat, 2 * a + 1 < d → repr float_repr str_repr d h (VRef a) = Ok s.
Proof.
  intros Hord Hval Hprint. induction a as [a IH] using lt_wf_ind.
  intros [o Ho].
  destruct (is_terminal (ob_type o)) eqn:Ht.
  - destruct (Hval a o Ho Ht) as [v Hv].
    destruct (scalar_repr_total float_repr str_repr v) as [s Hs].
    { intros z ->. by eapply Hprint. }
    exists s.
    intros d Hd. destruct d as [|d]; [lia|]. cbn [repr]. rewrite Ho, Ht.
    unfold Terminal.__repr__. by rewrite Hv.
  - pose proof (lookup_lt_Some _ _ _ Ho) as Ha.
    assert (Hops : Forall (fun v => ∃ s, ∀ d : nat, (2 * a ≤ d)%nat →
                             repr float_repr str_repr d h v = Ok s)
                          (ob_operands o)).
    { eapply Forall_impl; [exact (ordered_from_lookup h 0 a o Hord Ho)|].
      intros v (c & -> & Hc). simpl in Hc.
      destruct (IH c Hc) as [s Hs]; [apply lookup_lt_is_Some; lia|].
      exists s. intros d Hd. apply Hs. lia. }
    destruct (map_result_total (fun d => repr float_repr str_repr d h) _ _ Hops)
      as [texts Htexts].
    exists (klass_name (ob_type o) +:+ tuple_repr texts).
    intros d Hd. destruct d as [|[|d]]; [lia|lia|].
    cbn [repr]. rewrite Ho, Ht. unfold Operator.__repr__.
    cbn [repr]. rewrite Htexts by lia. done.
Qed.

(** [repr(Add((n, x, n)))] for [n = Number(7)] and [x = Symbol('x')]. *)
Lemma repr_total_witness :
  ordered [Object Number [] (Some (SInt 7));
           Object Symbol [] (Some (SStr "x"));
           Object Add [VRef 0; VRef 1; VRef 0] None] = true
  ∧ repr (fun _ => "") (fun s => "'" +:+ s +:+ "'") 6
         [Object Number [] (Some (SInt 7));
          Object Symbol [] (Some (SStr "x"));
          Object Add [VRef 0; VRef 1; VRef 0] None] (VRef 2)
    = Ok "Add(7, 'x', 7)"
  ∧ ∃ s, ∀ d : nat, 2 * 2 + 1 < d →
      repr (fun _ => "") (fun s => "'" +:+ s +:+ "'") d
           [Object Number [] (Some (SInt 7));
            Object Symbol [] (Some (SStr "x"));
            Object Add [VRef 0; VRef 1; VRef 0] None] (VRef 2)
      = Ok s.
Proof.
  split; [reflexivity|]. split; [reflexivity|].
  apply (repr_total (fun _ => "") (fun s => "'" +:+ s +:+ "'")
           [Object Number [] (Some (SInt 7));
            Object Symbol [] (Some (SStr "x"));
            Object Add [VRef 0; VRef 1; VRef 0] None] 2).
  - reflexivity.
  - intros c o Ho Ht.
    do 3 (destruct c as [|c]; [injection Ho as <-; by eauto|]). done.
  - intros c o z Ho Hz.
    do 3 (destruct c as [|c];
          [injection Ho as <-; simpl in Hz; try done; injection Hz as <-;
           apply Nat.leb_le; reflexivity|]).
    done.
  - by eexists.
Defined.

(** * Further properties of the visitor *)

Lemma postvisitor_no_node {R K W} (h : heap) (fn : combiner R K W)
  (kw : K) (expr : value) (w : W) (fuel : nat) :
  (∀ a, expr ≠ VRef a)
  ∨ (∃ a o c rest, expr = VRef a ∧ h !! a = Some o
                   ∧ ob_operands o = c :: rest ∧ ∀ b, c ≠ VRef b) →
  postvisitor h fn kw (2 + fuel) expr w = Raised AttributeError w.
Proof.
  intros [Hexpr|(a & o & c & rest & -> & Ho & Hops & Hc)].
  - unfold postvisitor. cbn [while_loop stack Nat.add]. unfold iteration.
    cbn [visited world]. destruct expr as [s|items|a]; try done.
    by destruct (Hexpr a).
  - assert (Hcv : ∀ V : gmap addr R, in_visited V c = false).
    { intros V. destruct c as [s|items|b]; try done. by destruct (Hc b). }
    unfold postvisitor. cbn [Nat.add].
    rewrite (while_loop_requeue h fn kw _ ∅ a o [] [] w);
      [|apply lookup_empty|done|by rewrite Hops; simpl; rewrite Hcv].
    rewrite Hops, filter_cons, decide_True by apply Hcv.
    cbn [app while_loop stack]. unfold iteration. cbn [visited world].
    rewrite Hcv. destruct c as [s|items|b]; try done. by destruct (Hc b).
Qed.

(** X10: what is not a node has no [operands].  When the root is not a
    node, or is a node whose first operand is not a node, the traversal
    raises [AttributeError] within two iterations, without a call of the
    combining function: the caller's state is untouched. *)
Theorem postvisitor_meets_no_node {R K W} (h : heap) (fn : combiner R K W)
  (kw : K) (expr : value) (w : W) (fuel : nat) :
  (∀ a, expr ≠ VRef a)
  ∨ (∃ a o c rest, expr = VRef a ∧ h !! a = Some o
                   ∧ ob_operands o = c :: rest ∧ ∀ b, c ≠ VRef b) →
  postvisitor h fn kw (2 + fuel) expr w = Raised AttributeError w.
Proof. apply postvisitor_no_node. Qed.

(** The traversal of [Add((5, x))] and of the number 5 itself. *)
Lemma postvisitor_meets_no_node_witness :
  ((∀ a, VInt 5 ≠ VRef a)
   ∨ (∃ a o c rest, VInt 5 = VRef a ∧ raw_operand_heap !! a = Some o
                    ∧ ob_operands o = c :: rest ∧ ∀ b, c ≠ VRef b))
  ∧ postvisitor raw_operand_heap (evaluate raw_operand_heap) tt 2 (VInt 5) tt
    = Raised AttributeError tt.
Proof.
  split; [by left|].
  apply (postvisitor_meets_no_node raw_operand_heap
           (evaluate raw_operand_heap) tt (VInt 5) tt 0).
  by left.
Defined.

Section Stuck.

Context {R K : Type}.
Variable h : heap.
Variable kwargs : K.

(** A set of values that can never become ready: each of its nodes has an
    operand in the set.  Values that are not nodes, and the nodes of a
    cycle, form such sets. *)
Variable C : value -> Prop.
Hypothesis C_closed :
  ∀ a o, C (VRef a) → h !! a = Some o → ∃ c, c ∈ ob_operands o ∧ C c.

Lemma ready_not_stuck (V : gmap addr R) (a : addr) (o : object) :
  unvisited C V → h !! a = Some o →
  forallb (in_visited V) (ob_operands o) = true → ¬ C (VRef a).
Proof.
  intros HV Ho Hall Ha. destruct (C_closed a o Ha Ho) as (c & Hc & HCc).
  rewrite forallb_forall in Hall.
  specialize (Hall c (proj1 (list_elem_of_In _ _) Hc)).
  by rewrite (HV c HCc) in Hall.
Qed.

Lemma unvisited_insert (V : gmap addr R) (a : addr) (r : R) :
  unvisited C V → ¬ C (VRef a) → unvisited C (<[a := r]> V).
Proof.
  intros HV Ha v Hv. destruct v as [s|items|b]; try done.
  apply in_visited_ref_false. rewrite lookup_insert_ne.
  - apply in_visited_ref_false. by apply HV.
  - by intros ->.
Qed.

Lemma iteration_stuck {W} (fn : combiner R K W) (st : vstate R W) (node : value)
  (rest : list value) :
  unvisited C (visited st) →
  match iteration h fn kwargs st node rest with
  | Next st' => unvisited C (visited st')
  | Abort _ _ => True
  end.
Proof.
  intros HV. unfold iteration.
  destruct (in_visited (visited st) node); [done|].
  destruct (node_of h node) as [[a o]|e] eqn:Hnode; [|done].
  destruct node as [| |a']; try done. simpl in Hnode.
  destruct (h !! a') as [o'|] eqn:Ho; [|done]. injection Hnode as -> ->.
  destruct (forallb (in_visited (visited st)) (ob_operands o)) eqn:Hall;
    [|done].
  destruct (getitems (visited st) (ob_operands o)) as [args|e]; [|done].
  destruct (fn a args kwargs (world st)) as [r w'|e w']; [|done].
  cbn [visited]. apply unvisited_insert; [done|].
  by eapply ready_not_stuck.
Qed.

Lemma while_loop_stuck {W} (fn : combiner R K W) (fuel : nat) (st : vstate R W) :
  unvisited C (visited st) →
  match while_loop h fn kwargs fuel st with
  | Finished st' => unvisited C (visited st')
  | _ => True
  end.
Proof.
  revert st. induction fuel as [|fuel IH]; intros st HV.
  - simpl. by destruct (stack st).
  - simpl. destruct (stack st) as [|node rest]; [done|].
    pose proof (iteration_stuck fn st node rest HV) as Hit.
    destruct (iteration h fn kwargs st node rest) as [st'|e w']; [|done].
    by apply IH.
Qed.

Lemma getitem_in_visited (V : gmap addr R) (v : value) (r : R) :
  getitem V v = Ok r → in_visited V v = true.
Proof.
  destruct v as [s|items|a]; try done. simpl.
  destruct (V !! a) eqn:Ha; [|done]. intros _.
  apply bool_decide_eq_true. by eauto.
Qed.

Lemma postvisitor_stuck {W} (fn : combiner R K W) (fuel : nat) (expr : value)
  (w : W) (r : R) (w' : W) :
  C expr → postvisitor h fn kwargs fuel expr w ≠ Returned r w'.
Proof.
  intros Hexpr. unfold postvisitor.
  pose proof (while_loop_stuck fn fuel (VState ∅ [expr] [] w)) as Hrun.
  destruct (while_loop h fn kwargs fuel _) as [st|e w1|st]; [|done|done].
  destruct (getitem (visited st) expr) as [r1|e] eqn:Hget; [|done].
  apply getitem_in_visited in Hget.
  rewrite Hrun in Hget; [done| |done].
  intros v _. by destruct v.
Qed.

Lemma iteration_stuck_log {W} (fn : combiner R K W)
  (st : vstate R (W * list (invocation R K))) (node : value)
  (rest : list value) :
  unvisited C (visited st) → clear_log C (world st).2 →
  match iteration h (traced fn) kwargs st node rest with
  | Next st' => clear_log C (world st').2
  | Abort _ wl => clear_log C wl.2
  end.
Proof.
  intros HV Hlog. unfold iteration.
  destruct (in_visited (visited st) node); [done|].
  destruct (node_of h node) as [[a o]|e] eqn:Hnode; [|done].
  destruct node as [| |a']; try done. simpl in Hnode.
  destruct (h !! a') as [o'|] eqn:Ho; [|done]. injection Hnode as -> ->.
  destruct (forallb (in_visited (visited st)) (ob_operands o)) eqn:Hall;
    [|done].
  destruct (getitems (visited st) (ob_operands o)) as [args|e]; [|done].
  pose proof (ready_not_stuck _ a o HV Ho Hall) as Ha.
  unfold traced. destruct (fn a args kwargs (world st).1) as [r w'|e w'];
    by constructor.
Qed.

Lemma while_loop_stuck_log {W} (fn : combiner R K W) (fuel : nat)
  (st : vstate R (W * list (invocation R K))) :
  unvisited C (visited st) → clear_log C (world st).2 →
  match while_loop h (traced fn) kwargs fuel st with
  | Finished st' => clear_log C (world st').2
  | Aborted _ wl => clear_log C wl.2
  | OutOfFuel st' => clear_log C (world st').2
  end.
Proof.
  revert st. induction fuel as [|fuel IH]; intros st HV Hlog.
  - simpl. by destruct (stack st).
  - simpl. destruct (stack st) as [|node rest]; [done|].
    pose proof (iteration_stuck (traced fn) st node rest HV) as Hit.
    pose proof (iteration_stuck_log fn st node rest HV Hlog) as Hit'.
    destruct (iteration h (traced fn) kwargs st node rest) as [st'|e wl];
      [|done].
    by apply IH.
Qed.

Lemma postvisitor_stuck_log {W} (fn : combiner R K W) (fuel : nat) (expr : value)
  (w : W) :
  clear_log C (visit_world (postvisitor h (traced fn) kwargs fuel expr (w, []))).2.
Proof.
  unfold postvisitor.
  pose proof (while_loop_stuck_log fn fuel (VState ∅ [expr] [] (w, [])))
    as Hrun.
  destruct (while_loop h (traced fn) kwargs fuel _) as [st|e wl|st];
    simpl in *.
  - destruct (getitem (visited st) expr); simpl; apply Hrun;
      try (intros v _; by destruct v); constructor.
  - apply Hrun; [intros v _; by destruct v|constructor].
  - apply Hrun; [intros v _; by destruct v|constructor].
Qed.

End Stuck.

(** X11: the traversal of a graph that is not well formed never returns.
    For every set of values each of whose nodes has an operand in the set
    (the nodes of a cycle; what is not a node, with the nodes above it),
    no node of the set is ever passed to the combining function, and a
    traversal whose root is in the set returns no result, whatever the
    number of iterations. *)
Theorem stuck_nodes_never_combined {R K W} (h : heap) (fn : combiner R K W)
  (kw : K) (C : value -> Prop) (expr : value) (w : W) (fuel : nat) :
  (∀ a o, C (VRef a) → h !! a = Some o → ∃ c, c ∈ ob_operands o ∧ C c) →
  Forall (fun c => ¬ C (VRef (inv_node c)))
         (visit_world (postvisitor h (traced fn) kw fuel expr (w, []))).2
  ∧ (C expr → ∀ r w', postvisitor h fn kw fuel expr w ≠ Returned r w').
Proof.
  intros HC. split.
  - apply (postvisitor_stuck_log h kw C HC).
  - intros Hexpr r w'. by apply (postvisitor_stuck h kw C HC).
Qed.

(** [Add((Symbol('x'), 5))]: the number 5 and the node above it. *)
Lemma stuck_nodes_never_combined_witness :
  (∀ a o, (VRef a = VInt 5 ∨ VRef a = VRef 1) → raw_operand_heap !! a = Some o →
          ∃ c, c ∈ ob_operands o ∧ (c = VInt 5 ∨ c = VRef 1))
  ∧ ∀ r w', postvisitor raw_operand_heap (evaluate raw_operand_heap) tt 9
                        (VRef 1) tt ≠ Returned r w'.
Proof.
  assert (Hclosed : ∀ a o, (VRef a = VInt 5 ∨ VRef a = VRef 1) →
                           raw_operand_heap !! a = Some o →
                           ∃ c, c ∈ ob_operands o ∧ (c = VInt 5 ∨ c = VRef 1)).
  { intros a o [Ha|Ha]; [discriminate|]. injection Ha as ->.
    intros [= <-]. exists (VInt 5). split; [|by left].
    simpl. apply list_elem_of_further, list_elem_of_here. }
  split; [exact Hclosed|].
  apply (proj2 (stuck_nodes_never_combined raw_operand_heap
                  (evaluate raw_operand_heap) tt
                  (fun v => v = VInt 5 ∨ v = VRef 1) (VRef 1) tt 9 Hclosed)).
  by right.
Defined.

Section Reach.

Context {R K W : Type}.
Variable h : heap.
Variable fn : combiner R K W.
Variable kwargs : K.
Variable root : value.

Lemma iteration_reach (st : vstate R (W * list (invocation R K)))
  (node : value) (rest : list value) :
  reachable h root node → Forall (reachable h root) rest →
  Forall (fun c => reachable h root (VRef (inv_node c))) (world st).2 →
  match iteration h (traced fn) kwargs st node rest with
  | Next st' =>
      Forall (reachable h root) (stack st')
      ∧ Forall (fun c => reachable h root (VRef (inv_node c))) (world st').2
  | Abort _ wl => Forall (fun c => reachable h root (VRef (inv_node c))) wl.2
  end.
Proof.
  intros Hnode Hrest Hlog. unfold iteration.
  destruct (in_visited (visited st) node); [done|].
  destruct (node_of h node) as [[a o]|e] eqn:Ha; [|done].
  destruct node as [| |a']; try done. simpl in Ha.
  destruct (h !! a') as [o'|] eqn:Ho; [|done]. injection Ha as -> ->.
  destruct (forallb (in_visited (visited st)) (ob_operands o)).
  - destruct (getitems (visited st) (ob_operands o)) as [args|e]; [|done].
    unfold traced. destruct (fn a args kwargs (world st).1) as [r w'|e w'].
    + split; [done|by constructor].
    + by constructor.
  - split; [|done]. cbn [stack]. rewrite push_unvisited_rev.
    apply Forall_app. split; [|by constructor].
    apply Forall_forall. intros c [_ Hc]%list_elem_of_filter.
    by eapply reach_operand.
Qed.

Lemma while_loop_reach (fuel : nat) (st : vstate R (W * list (invocation R K))) :
  Forall (reachable h root) (stack st) →
  Forall (fun c => reachable h root (VRef (inv_node c))) (world st).2 →
  match while_loop h (traced fn) kwargs fuel st with
  | Finished st' | OutOfFuel st' =>
      Forall (fun c => reachable h root (VRef (inv_node c))) (world st').2
  | Aborted _ wl => Forall (fun c => reachable h root (VRef (inv_node c))) wl.2
  end.
Proof.
  revert st. induction fuel as [|fuel IH]; intros st Hstack Hlog.
  - simpl. by destruct (stack st).
  - simpl. destruct (stack st) as [|node rest]; [done|].
    apply Forall_cons in Hstack as [Hnode Hrest].
    pose proof (iteration_reach st node rest Hnode Hrest Hlog) as Hit.
    destruct (iteration h (traced fn) kwargs st node rest) as [st'|e wl];
      [|done].
    destruct Hit. by apply IH.
Qed.

Lemma postvisitor_reach (fuel : nat) (w : W) :
  Forall (fun c => reachable h root (VRef (inv_node c)))
         (visit_world (postvisitor h (traced fn) kwargs fuel root (w, []))).2.
Proof.
  unfold postvisitor.
  pose proof (while_loop_reach fuel (VState ∅ [root] [] (w, []))) as Hrun.
  destruct (while_loop h (traced fn) kwargs fuel _) as [st|e wl|st];
    simpl in *.
  - destruct (getitem (visited st) root); simpl; apply Hrun;
      repeat constructor.
  - apply Hrun; repeat constructor.
  - apply Hrun; repeat constructor.
Qed.

End Reach.

(** X12: whatever the graph, the function and the outcome, the combining
    function is only called on nodes that can be reached from the root
    through operand tuples: other objects of the store are never
    visited. *)
Theorem only_reachable_nodes_combined {R K W} (h : heap) (fn : combiner R K W)
  (kw : K) (expr : value) (w : W) (fuel : nat) (c : invocation R K) :
  c ∈ (visit_world (postvisitor h (traced fn) kw fuel expr (w, []))).2 →
  reachable h expr (VRef (inv_node c)).
Proof.
  intros Hc. pose proof (postvisitor_reach h fn kw expr fuel w) as Hlog.
  rewrite Forall_forall in Hlog. by apply Hlog.
Qed.

(** In the store of [a - (b - c)] and [(a - b) - c], the traversal from
    [b - c] (address 3) calls the function on [b] (address 1). *)
Lemma only_reachable_nodes_combined_witness :
  Invocation 1 [] tt (Error KeyError)
    ∈ (visit_world (postvisitor difference_heap
                      (traced (evaluate difference_heap)) tt 5 (VRef 3)
                      (tt, []))).2
  ∧ reachable difference_heap (VRef 3) (VRef 1).
Proof.
  split; [vm_compute; apply list_elem_of_here|].
  apply (only_reachable_nodes_combined difference_heap
           (evaluate difference_heap) tt (VRef 3) tt 5
           (Invocation 1 [] tt (Error KeyError))).
  vm_compute. apply list_elem_of_here.
Defined.

Lemma well_logged_lookup {R K} (h : heap) (kw : K)
  (log : list (invocation R K)) (c : invocation R K) :
  well_logged h kw log → c ∈ log → is_Some (h !! inv_node c).
Proof.
  induction log as [|c' log IH]; [by intros _ ?%not_elem_of_nil|].
  simpl. intros (Hlog & _ & _ & _ & o & Ho & _) [->|Hc]%elem_of_cons.
  - by eauto.
  - by apply IH.
Qed.

(** X13: a traversal that returns has passed to the combining function
    exactly the nodes that can be reached from the root, each of them
    once. *)
Theorem reachable_nodes_combined_once {R K W} (h : heap)
  (fn : combiner R K W) (kw : K) (expr : value) (w : W) (fuel : nat) (r : R)
  (wl : W * list (invocation R K)) :
  postvisitor h (traced fn) kw fuel expr (w, []) = Returned r wl →
  NoDup (inv_node <$> wl.2)
  ∧ ∀ v, reachable h expr v ↔ ∃ c, c ∈ wl.2 ∧ v = VRef (inv_node c).
Proof.
  intros Hret.
  pose proof (postvisitor_logged h fn kw fuel expr w) as Hlog.
  pose proof (postvisitor_at_most_once h fn kw fuel expr w) as Hnodup.
  pose proof (postvisitor_reach h fn kw expr fuel w) as Hreach.
  rewrite Hret in Hlog, Hnodup, Hreach. simpl in Hnodup, Hreach.
  destruct Hlog as (Hwl & _ & Hget).
  split; [done|]. intros v. split.
  - induction 1 as [|a o c Ha IH Ho Hc].
    + destruct expr as [| |a]; try done. simpl in Hget.
      destruct (results wl.2 !! a) as [r'|] eqn:Hr; [|done].
      apply results_Some in Hr as (c & Hc & <- & _). by exists c.
    + destruct IH as (c0 & Hc0 & [= ->]).
      apply list_elem_of_split in Hc0 as (l1 & l2 & Hsplit).
      rewrite Hsplit in Hwl.
      destruct (well_logged_call h kw l1 c0 l2 Hwl)
        as (_ & _ & o' & Ho' & Hargs).
      rewrite Ho in Ho'. injection Ho' as <-.
      apply list_elem_of_lookup in Hc as [i Hi].
      destruct (Forall2_lookup_l _ _ _ _ _ Hargs Hi)
        as (y & _ & c' & Hc' & -> & _).
      exists c'. split; [|done]. rewrite Hsplit.
      apply elem_of_app. right. by right.
  - intros (c & Hc & ->). rewrite Forall_forall in Hreach. by apply Hreach.
Qed.

(** The traversal of [2 + 3 * 4] by the function that counts paths. *)
Lemma reachable_nodes_combined_once_witness :
  (∃ r wl, postvisitor arith_heap (traced (pure_fn paths)) tt 7 (VRef 4)
                       (tt, []) = Returned r wl)
  ∧ ∀ v, reachable arith_heap (VRef 4) v
         ↔ ∃ c, c ∈ (visit_world (postvisitor arith_heap
                                    (traced (pure_fn paths)) tt 7 (VRef 4)
                                    (tt, []))).2
                ∧ v = VRef (inv_node c).
Proof.
  split; [by eexists _, _|].
  destruct (postvisitor arith_heap (traced (pure_fn paths)) tt 7 (VRef 4)
              (tt, [])) as [r wl| |] eqn:Hrun; [|done|done].
  apply (reachable_nodes_combined_once arith_heap (pure_fn paths) tt
           (VRef 4) tt 7 r wl Hrun).
Defined.

(** X14: the number of calls of the combining function never exceeds the
    number of objects of the store, in any traversal, also one that is
    stopped by an exception or that does not stop. *)
Theorem calls_bounded_by_store {R K W} (h : heap) (fn : combiner R K W)
  (kw : K) (expr : value) (w : W) (fuel : nat) :
  (length (visit_world (postvisitor h (traced fn) kw fuel expr (w, []))).2
   ≤ length h)%nat.
Proof.
  pose proof (postvisitor_at_most_once h fn kw fuel expr w) as Hnodup.
  assert (Hlog : well_logged h kw
            (visit_world (postvisitor h (traced fn) kw fuel expr (w, []))).2).
  { pose proof (postvisitor_logged h fn kw fuel expr w) as Hlog.
    destruct (postvisitor h (traced fn) kw fuel expr (w, []));
      simpl; apply Hlog. }
  set (log := (visit_world _).2) in *.
  rewrite <- (length_fmap inv_node log).
  etrans; [|apply Nat.eq_le_incl, (length_seq (length h) 0)].
  apply submseteq_length, NoDup_submseteq; [done|].
  intros a (c & -> & Hc)%list_elem_of_fmap.
  apply elem_of_seq. split; [lia|]. simpl.
  apply lookup_lt_is_Some. by eapply well_logged_lookup.
Qed.

(** ** The order of the calls *)

Lemma postorder_seen (n : nat) (h : heap) (seen : list addr) (a : addr) :
  a ∈ seen → postorder n h seen (VRef a) = seen.
Proof.
  intros Ha. destruct n as [|n]; [done|]. simpl.
  by rewrite bool_decide_eq_true_2.
Qed.

Lemma postorder_mono (n : nat) (h : heap) (seen : list addr) (v : value)
  (x : addr) :
  x ∈ seen → x ∈ postorder n h seen v.
Proof.
  revert seen v. induction n as [|n IH]; intros seen v Hx; [done|].
  simpl. destruct v as [| |a]; try done.
  case_bool_decide as Hseen; [done|]. destruct (h !! a) as [o|]; [|done].
  right. clear Hseen. revert seen Hx.
  induction (ob_operands o) as [|c l IHl]; intros seen Hx; [done|].
  simpl. apply IHl. by apply IH.
Qed.

Lemma filter_unvisited_nil {R} (V : gmap addr R) (ops : list value) :
  forallb (in_visited V) ops = true →
  filter (fun c => in_visited V c = false) ops = [].
Proof.
  induction ops as [|c ops IH]; [done|]. simpl.
  intros [Hc Hops]%andb_prop.
  rewrite filter_cons, decide_False by (by rewrite Hc). by apply IH.
Qed.

Section Order.

Context {R K W : Type}.
Variable h : heap.
Variable fn : combiner R K W.
Variable kwargs : K.
Variable rank : addr -> nat.
Hypothesis Hranked : ranked rank h.
Hypothesis fn_returns : ∀ a args w, ∃ r w', fn a args kwargs w = FnReturn r w'.

Implicit Types (V : gmap addr R) (log : list (invocation R K)).

(** The recursive traversal of operands of rank below [m] only adds nodes
    of rank below [m]. *)
Lemma postorder_rank (n : nat) (seen : list addr) (a x : addr) :
  x ∈ postorder n h seen (VRef a) → x ∈ seen ∨ (rank x ≤ rank a)%nat.
Proof.
  revert seen a. induction n as [|n IH]; intros seen a; [by left|].
  simpl. case_bool_decide as Hseen; [by left|].
  destruct (h !! a) as [o|] eqn:Ho; [|by left].
  intros [->|Hx]%elem_of_cons; [by right|].
  pose proof (Hranked a o Ho) as Hops.
  clear Hseen. revert seen Hx. clear Ho.
  induction Hops as [|v l (c & -> & _ & Hc) _ IHl]; intros seen Hx;
    [by left|].
  simpl in Hx. destruct (IHl _ Hx) as [Hx'|]; [|by right].
  destruct (IH _ _ Hx') as [|]; [by left|right; lia].
Qed.

Lemma fold_postorder_rank (n : nat) (m : nat) (l : list value)
  (seen : list addr) (x : addr) :
  Forall (fun v => ∃ c, v = VRef c ∧ is_Some (h !! c) ∧ rank c < m) l →
  x ∈ fold_left (postorder n h) l seen → x ∈ seen ∨ rank x < m.
Proof.
  intros Hl. revert seen.
  induction Hl as [|v l (c & -> & _ & Hc) _ IHl]; intros seen Hx; [by left|].
  simpl in Hx. destruct (IHl _ Hx) as [Hx'|]; [|by right].
  destruct (postorder_rank _ _ _ _ Hx') as [|]; [by left|right; lia].
Qed.

(** Operands that are visited already add nothing to the recursive
    traversal: it may skip them, as the loop does when it pushes. *)
Lemma fold_postorder_filter (n : nat) V (seen0 : list addr) (l : list value)
  (seen : list addr) :
  synced V seen0 → (∀ x, x ∈ seen0 → x ∈ seen) →
  fold_left (postorder n h) (filter (fun c => in_visited V c = false) l) seen
  = fold_left (postorder n h) l seen.
Proof.
  intros HV. revert seen. induction l as [|v l IH]; intros seen Hsub; [done|].
  rewrite filter_cons. destruct (in_visited V v) eqn:Hv.
  - rewrite decide_False by done. simpl.
    destruct v as [| |c]; try done.
    apply in_visited_ref, HV, Hsub in Hv.
    rewrite (postorder_seen n h seen c Hv). by apply IH.
  - rewrite decide_True by done. simpl. apply IH.
    intros x Hx. by apply postorder_mono, Hsub.
Qed.

Lemma synced_insert V (seen : list addr) (a : addr) (r : R) :
  synced V seen → synced (<[a := r]> V) (a :: seen).
Proof.
  intros HV b. rewrite elem_of_cons, lookup_insert.
  case_decide as Hab.
  - subst. split; [by left|by eauto].
  - split; [intros Hb%HV; by right|].
    intros [->|Hb]; [done|by apply HV].
Qed.

(** A node whose operands are all visited, and that is not, is combined
    in one iteration, which adds it to the log. *)
Lemma order_ready V (a : addr) (o : object) (rest : list value) (rs : list R)
  (w : W) log :
  synced V (inv_node <$> log) → V !! a = None → h !! a = Some o →
  forallb (in_visited V) (ob_operands o) = true →
  ∃ V' rs' w' c,
    inv_node c = a
    ∧ synced V' (inv_node <$> c :: log) ∧ V ⊆ V' ∧ is_Some (V' !! a)
    ∧ ∀ f, while_loop h (traced fn) kwargs (1 + f)
                      (VState V (VRef a :: rest) rs (w, log))
           = while_loop h (traced fn) kwargs f
                        (VState V' rest rs' (w', c :: log)).
Proof.
  intros HV Ha Ho Hall.
  destruct (getitems_visited V _ Hall) as [args Hargs].
  destruct (fn_returns a args w) as (r & w' & Hfn).
  exists (<[a := r]> V), (rs ++ [r]), w', (Invocation a args kwargs (Ok r)).
  split_and!.
  - done.
  - by apply synced_insert.
  - by apply insert_subseteq.
  - by rewrite lookup_insert_eq.
  - intros f. simpl Nat.add.
    rewrite (while_loop_ready h (traced fn) kwargs f V a o args rest rs
               (w, log) Ha Ho Hargs Hall).
    unfold traced. cbn [fst snd]. by rewrite Hfn.
Qed.

Lemma operand_count_app (l1 l2 : list (invocation R K)) :
  operand_count h (l1 ++ l2) = operand_count h l1 + operand_count h l2.
Proof. unfold operand_count. by rewrite fmap_app, list_sum_app. Qed.

Lemma order_children (n : nat) :
  (∀ a, rank a < n → is_Some (h !! a) →
     ∀ V rest rs w log, synced V (inv_node <$> log) →
       ∃ k V' rs' w' new,
         synced V' (inv_node <$> new ++ log) ∧ V ⊆ V' ∧ is_Some (V' !! a)
         ∧ inv_node <$> new ++ log = postorder n h (inv_node <$> log) (VRef a)
         ∧ (k ≤ 1 + 2 * length new + operand_count h new)%nat
         ∧ ∀ f, while_loop h (traced fn) kwargs (k + f)
                           (VState V (VRef a :: rest) rs (w, log))
                = while_loop h (traced fn) kwargs f
                             (VState V' rest rs' (w', new ++ log))) →
  ∀ cs : list value,
    Forall (fun v => ∃ c, v = VRef c ∧ is_Some (h !! c) ∧ rank c < n) cs →
    ∀ V rest rs w log, synced V (inv_node <$> log) →
      ∃ k V' rs' w' new,
        synced V' (inv_node <$> new ++ log) ∧ V ⊆ V'
        ∧ Forall (fun v => in_visited V' v = true) cs
        ∧ inv_node <$> new ++ log
          = fold_left (postorder n h) cs (inv_node <$> log)
        ∧ (k ≤ length cs + 2 * length new + operand_count h new)%nat
        ∧ ∀ f, while_loop h (traced fn) kwargs (k + f)
                          (VState V (cs ++ rest) rs (w, log))
               = while_loop h (traced fn) kwargs f
                            (VState V' rest rs' (w', new ++ log)).
Proof.
  intros IHn cs Hcs.
  induction Hcs as [|v cs (c & -> & Hc & Hlt) _ IHcs];
    intros V rest rs w log HV.
  - exists 0, V, rs, w, []. by split_and!.
  - destruct (IHn c Hlt Hc V (cs ++ rest) rs w log HV)
      as (k1 & V1 & rs1 & w1 & new1 & HV1 & Hsub1 & Hc1 & Hlog1 & Hk1 & Hrun1).
    destruct (IHcs V1 rest rs1 w1 (new1 ++ log) HV1)
      as (k2 & V2 & rs2 & w2 & new2 & HV2 & Hsub2 & Hcs2 & Hlog2 & Hk2 & Hrun2).
    exists (k1 + k2), V2, rs2, w2, (new2 ++ new1).
    rewrite <- !app_assoc. split_and!; [done|by etrans| | | |].
    + constructor; [|done].
      eapply in_visited_mono; [done|]. by apply in_visited_ref.
    + simpl. by rewrite <- Hlog1.
    + rewrite operand_count_app, length_app. simpl. lia.
    + intros f. rewrite <- Nat.add_assoc. simpl app. by rewrite Hrun1, Hrun2.
Qed.

Lemma order_node (n : nat) :
  ∀ a, rank a < n → is_Some (h !! a) →
    ∀ V rest rs w log, synced V (inv_node <$> log) →
      ∃ k V' rs' w' new,
        synced V' (inv_node <$> new ++ log) ∧ V ⊆ V' ∧ is_Some (V' !! a)
        ∧ inv_node <$> new ++ log = postorder n h (inv_node <$> log) (VRef a)
        ∧ (k ≤ 1 + 2 * length new + operand_count h new)%nat
        ∧ ∀ f, while_loop h (traced fn) kwargs (k + f)
                          (VState V (VRef a :: rest) rs (w, log))
               = while_loop h (traced fn) kwargs f
                            (VState V' rest rs' (w', new ++ log)).
Proof.
  induction n as [|n IHn]; [intros a Hlt; lia|].
  intros a Hlt [o Ho] V rest rs w log HV.
  destruct (V !! a) as [r|] eqn:HVa.
  { exists 1, V, rs, w, []. split_and!; [done|done|by eauto| |simpl; lia|].
    - rewrite postorder_seen; [done|]. apply HV. by eauto.
    - intros f. apply while_loop_visited. by eauto. }
  assert (Hnew : a ∉ inv_node <$> log).
  { intros Hin%HV. rewrite HVa in Hin. by destruct Hin. }
  assert (Hpost : postorder (S n) h (inv_node <$> log) (VRef a)
                  = a :: fold_left (postorder n h)
                           (filter (fun c => in_visited V c = false)
                                   (ob_operands o))
                           (inv_node <$> log)).
  { simpl. rewrite bool_decide_eq_false_2 by done. rewrite Ho.
    by rewrite (fold_postorder_filter n V (inv_node <$> log)). }
  assert (Harity : ∀ c : invocation R K,
             inv_node c = a → arity h (inv_node c) = length (ob_operands o)).
  { intros c ->. unfold arity. by rewrite Ho. }
  destruct (forallb (in_visited V) (ob_operands o)) eqn:Hall.
  - destruct (order_ready V a o rest rs w log HV HVa Ho Hall)
      as (V' & rs' & w' & c & Hc & HV' & Hsub & Ha' & Hrun).
    exists 1, V', rs', w', [c].
    split_and!; [done|done|done| |simpl; lia|done].
    rewrite Hpost. simpl app. rewrite fmap_cons, Hc. f_equal.
    by rewrite (filter_unvisited_nil V _ Hall).
  - set (cs := filter (fun c => in_visited V c = false) (ob_operands o)) in *.
    assert (Hcs : Forall (fun v => ∃ c, v = VRef c ∧ is_Some (h !! c)
                                        ∧ rank c < rank a) cs).
    { apply Forall_forall. intros v [_ Hin]%list_elem_of_filter.
      pose proof (Hranked a o Ho) as Hops. rewrite Forall_forall in Hops.
      by apply Hops. }
    assert (Hcs' : Forall (fun v => ∃ c, v = VRef c ∧ is_Some (h !! c)
                                         ∧ rank c < n) cs).
    { eapply Forall_impl; [exact Hcs|].
      intros v (c & -> & Hc & Hrk). exists c. split_and!; [done|done|lia]. }
    assert (Hlen : (length cs ≤ length (ob_operands o))%nat)
      by apply length_filter.
    destruct (order_children n IHn cs Hcs' V (VRef a :: rest) rs w log HV)
      as (k1 & V1 & rs1 & w1 & new1 & HV1 & Hsub1 & Hcs1 & Hlog1 & Hk1 & Hrun1).
    assert (HV1a : V1 !! a = None).
    { apply eq_None_not_Some. intros Hin%HV1. rewrite Hlog1 in Hin.
      destruct (fold_postorder_rank n (rank a) cs _ a Hcs Hin); [done|lia]. }
    assert (Hall1 : forallb (in_visited V1) (ob_operands o) = true).
    { apply forallb_forall. intros v Hv%list_elem_of_In.
      destruct (in_visited V v) eqn:HVv.
      - by eapply in_visited_mono.
      - rewrite Forall_forall in Hcs1. apply Hcs1.
        by apply list_elem_of_filter. }
    destruct (order_ready V1 a o rest rs1 w1 (new1 ++ log) HV1 HV1a Ho Hall1)
      as (V' & rs' & w' & c & Hc & HV' & Hsub & Ha' & Hrun).
    exists (S (k1 + 1)), V', rs', w', (c :: new1).
    split_and!; [done|by etrans|done| | |].
    + rewrite Hpost. simpl app. rewrite fmap_cons, Hc. f_equal. exact Hlog1.
    + change (c :: new1) with ([c] ++ new1).
      rewrite operand_count_app, length_app. unfold operand_count at 1.
      simpl. rewrite (Harity c Hc). lia.
    + intros f. simpl Nat.add.
      rewrite (while_loop_requeue h (traced fn) kwargs _ V a o rest rs
                 (w, log) HVa Ho Hall).
      rewrite <- Nat.add_assoc. fold cs. by rewrite Hrun1, Hrun.
Qed.

End Order.

(** X15: on an acyclic graph, with a combining function that returns, the
    traversal stops, and it has called the function in the order of the
    memoised recursive postorder: a node after its operands, the operands
    from left to right, each node at its first occurrence. *)
Theorem calls_in_postorder {R K W} (h : heap) (fn : combiner R K W) (kw : K)
  (rank : addr -> nat) (root : addr) (w : W) :
  ranked rank h → is_Some (h !! root) →
  (∀ a args w0, ∃ r w', fn a args kw w0 = FnReturn r w') →
  ∃ (k : nat) r wl,
    (∀ fuel : nat, (k ≤ fuel)%nat →
       postvisitor h (traced fn) kw fuel (VRef root) (w, []) = Returned r wl)
    ∧ inv_node <$> wl.2 = postorder (S (rank root)) h [] (VRef root).
Proof.
  intros Hranked Hroot Hfn.
  destruct (order_node h fn kw rank Hranked Hfn (S (rank root)) root
              (Nat.lt_succ_diag_r _) Hroot ∅ [] [] w [])
    as (k & V' & rs' & w' & log' & _ & _ & [r Hr] & Hlog & _ & Hrun).
  { intros a. rewrite lookup_empty. split; [by intros []|].
    by intros ?%not_elem_of_nil. }
  rewrite app_nil_r in Hlog, Hrun.
  exists k, r, (w', log'). split; [|done].
  apply (fuel_from (P := fun fuel => postvisitor _ _ _ fuel _ _ = _)).
  intros f. unfold postvisitor. rewrite Hrun, while_loop_empty.
  simpl. by rewrite Hr.
Qed.

(** In [2 + 3 * 4] the calls are on 2, 3, 4, the product and the sum. *)
Lemma calls_in_postorder_witness :
  ranked id arith_heap ∧ is_Some (arith_heap !! 4)
  ∧ postorder 5 arith_heap [] (VRef 4) = [4; 3; 2; 1; 0]
  ∧ ∃ (k : nat) r wl,
      (∀ fuel : nat, (k ≤ fuel)%nat →
         postvisitor arith_heap (traced (pure_fn paths)) tt fuel (VRef 4)
                     (tt, []) = Returned r wl)
      ∧ inv_node <$> wl.2 = postorder 5 arith_heap [] (VRef 4).
Proof.
  split; [apply ordered_ranked; reflexivity|].
  split; [by eexists|]. split; [reflexivity|].
  apply (calls_in_postorder arith_heap (pure_fn paths) tt id 4 tt).
  - apply ordered_ranked. reflexivity.
  - by eexists.
  - intros a args w0. by eexists _, _.
Defined.

(** ** The number of iterations *)

Lemma list_sum_submseteq (l1 l2 : list nat) :
  l1 ⊆+ l2 → (list_sum l1 ≤ list_sum l2)%nat.
Proof. induction 1; simpl; lia. Qed.

Lemma arity_seq (h : heap) :
  list_sum (arity h <$> seq 0 (length h)) = operands_total h.
Proof.
  induction h as [|o h IH]; [done|].
  unfold operands_total in *. rewrite fmap_cons.
  change (seq 0 (length (o :: h))) with (0 :: seq 1 (length h)).
  rewrite fmap_cons, <- fmap_S_seq, <- list_fmap_compose.
  simpl list_sum. rewrite <- IH. reflexivity.
Qed.

Lemma arity_outside (h : heap) (l : list addr) :
  list_sum (arity h <$> l)
  = list_sum (arity h <$> filter (fun a => a < length h) l).
Proof.
  induction l as [|a l IH]; [done|].
  rewrite fmap_cons.
  change (list_sum (arity h a :: (arity h <$> l)))
    with (arity h a + list_sum (arity h <$> l)).
  rewrite IH, filter_cons. case_decide as Ha; [done|].
  unfold arity at 1. by rewrite lookup_ge_None_2 by lia.
Qed.

(** The operands of distinct nodes are at most those of the store. *)
Lemma arity_bound (h : heap) (l : list addr) :
  NoDup l → (list_sum (arity h <$> l) ≤ operands_total h)%nat.
Proof.
  intros Hl. rewrite arity_outside, <- arity_seq.
  apply list_sum_submseteq, fmap_submseteq, NoDup_submseteq.
  - by apply NoDup_filter.
  - intros a [Ha _]%list_elem_of_filter. apply elem_of_seq. lia.
Qed.

Lemma well_logged_length {R K} (h : heap) (kw : K)
  (log : list (invocation R K)) :
  well_logged h kw log → (length log ≤ length h)%nat.
Proof.
  intros Hlog. rewrite <- (length_fmap inv_node log).
  etrans; [|apply Nat.eq_le_incl, (length_seq (length h) 0)].
  apply submseteq_length, NoDup_submseteq; [by eapply well_logged_NoDup|].
  intros a (c & -> & Hc)%list_elem_of_fmap.
  apply elem_of_seq. split; [lia|]. simpl.
  apply lookup_lt_is_Some. by eapply well_logged_lookup.
Qed.

(** X16: on an acyclic graph, with a combining function that returns, the
    loop of the traversal ends within one iteration, plus two for each object
    of the store, plus one for each operand of the store: it is linear in the
    size of the graph, however much of it is shared. *)
Theorem iterations_linear {R K W} (h : heap) (fn : combiner R K W) (kw : K)
  (rank : addr -> nat) (root : addr) (w : W) :
  ranked rank h → is_Some (h !! root) →
  (∀ a args w0, ∃ r w', fn a args kw w0 = FnReturn r w') →
  ∃ r wl,
    ∀ fuel : nat, (1 + 2 * length h + operands_total h ≤ fuel)%nat →
      postvisitor h (traced fn) kw fuel (VRef root) (w, []) = Returned r wl.
Proof.
  intros Hranked Hroot Hfn.
  destruct (order_node h fn kw rank Hranked Hfn (S (rank root)) root
              (Nat.lt_succ_diag_r _) Hroot ∅ [] [] w [])
    as (k & V' & rs' & w' & log' & _ & _ & [r Hr] & _ & Hk & Hrun).
  { intros a. rewrite lookup_empty. split; [by intros []|].
    by intros ?%not_elem_of_nil. }
  rewrite app_nil_r in Hrun.
  assert (Hall : ∀ f, postvisitor h (traced fn) kw (k + f) (VRef root) (w, [])
                      = Returned r (w', log')).
  { intros f. unfold postvisitor. rewrite Hrun, while_loop_empty.
    simpl. by rewrite Hr. }
  exists r, (w', log').
  pose proof (postvisitor_logged h fn kw (k + 0) (VRef root) w) as Hlog.
  rewrite Hall in Hlog. destruct Hlog as (Hlog & _ & _). simpl in Hlog.
  pose proof (well_logged_length h kw log' Hlog) as Hlen.
  pose proof (arity_bound h (inv_node <$> log')
                (well_logged_NoDup h kw log' Hlog)) as Hops.
  rewrite <- list_fmap_compose in Hops.
  assert (Hcount : (operand_count h log' ≤ operands_total h)%nat)
    by exact Hops.
  intros fuel Hfuel.
  apply (fuel_from (P := fun fuel => postvisitor _ _ _ fuel _ _ = _) k);
    [exact Hall|lia].
Qed.

(** [2 + 3 * 4] has five objects and four operands: fifteen iterations are
    enough. *)
Lemma iterations_linear_witness :
  ranked id arith_heap ∧ is_Some (arith_heap !! 4)
  ∧ 1 + 2 * length arith_heap + operands_total arith_heap = 15
  ∧ ∃ r wl,
      ∀ fuel : nat,
        (1 + 2 * length arith_heap + operands_total arith_heap ≤ fuel)%nat →
        postvisitor arith_heap (traced (pure_fn paths)) tt fuel (VRef 4)
                    (tt, []) = Returned r wl.
Proof.
  split; [apply ordered_ranked; reflexivity|].
  split; [by eexists|]. split; [reflexivity|].
  apply (iterations_linear arith_heap (pure_fn paths) tt id 4 tt).
  - apply ordered_ranked. reflexivity.
  - by eexists.
  - intros a args w0. by eexists _, _.
Defined.

(** ** What the traversal reads *)

Lemma ordered_reachable (h : heap) (r : addr) (v : value) :
  ordered h = true → reachable h (VRef r) v → ∃ a, v = VRef a ∧ (a ≤ r)%nat.
Proof.
  intros Hord. induction 1 as [|a o c _ (a' & [= <-] & Ha) Ho Hc].
  - by exists r.
  - pose proof (ordered_from_lookup h 0 a o Hord Ho) as Hops.
    rewrite Forall_forall in Hops.
    destruct (Hops c Hc) as (c' & -> & Hc'). exists c'. split; [done|lia].
Qed.

Section Local.

Context {R K W : Type}.
Variables h1 h2 : heap.
Variables fn1 fn2 : combiner R K W.
Variable kwargs : K.
Variable root : value.

Hypothesis same_objects :
  ∀ a, reachable h1 root (VRef a) → h2 !! a = h1 !! a.
Hypothesis same_calls :
  ∀ a args w, reachable h1 root (VRef a) →
    fn2 a args kwargs w = fn1 a args kwargs w.

Lemma iteration_local (st : vstate R W) (node : value) (rest : list value) :
  reachable h1 root node →
  iteration h2 fn2 kwargs st node rest = iteration h1 fn1 kwargs st node rest.
Proof.
  intros Hnode. unfold iteration.
  destruct (in_visited (visited st) node); [done|].
  destruct node as [| |a]; try done. unfold node_of.
  rewrite same_objects by done. destruct (h1 !! a) as [o|]; [|done].
  destruct (forallb (in_visited (visited st)) (ob_operands o)); [|done].
  destruct (getitems (visited st) (ob_operands o)) as [args|e]; [|done].
  by rewrite same_calls.
Qed.

Lemma iteration_stack_reach (st : vstate R W) (node : value)
  (rest : list value) (st' : vstate R W) :
  reachable h1 root node → Forall (reachable h1 root) rest →
  iteration h1 fn1 kwargs st node rest = Next st' →
  Forall (reachable h1 root) (stack st').
Proof.
  intros Hnode Hrest. unfold iteration.
  destruct (in_visited (visited st) node); [by intros [= <-]|].
  destruct (node_of h1 node) as [[a o]|e] eqn:Ha; [|done].
  destruct node as [| |a']; try done. simpl in Ha.
  destruct (h1 !! a') as [o'|] eqn:Ho; [|done]. injection Ha as -> ->.
  destruct (forallb (in_visited (visited st)) (ob_operands o)).
  - destruct (getitems (visited st) (ob_operands o)) as [args|e]; [|done].
    destruct (fn1 a args kwargs (world st)) as [r w'|e w']; [|done].
    by intros [= <-].
  - intros [= <-]. cbn [stack]. rewrite push_unvisited_rev.
    apply Forall_app. split; [|by constructor].
    apply Forall_forall. intros c [_ Hc]%list_elem_of_filter.
    by eapply reach_operand.
Qed.

Lemma while_loop_local (fuel : nat) (st : vstate R W) :
  Forall (reachable h1 root) (stack st) →
  while_loop h2 fn2 kwargs fuel st = while_loop h1 fn1 kwargs fuel st.
Proof.
  revert st. induction fuel as [|fuel IH]; intros st Hstack; [done|].
  simpl. destruct (stack st) as [|node rest]; [done|].
  apply Forall_cons in Hstack as [Hnode Hrest].
  rewrite (iteration_local st node rest Hnode).
  destruct (iteration h1 fn1 kwargs st node rest) as [st'|e w] eqn:Hit;
    [|done].
  apply IH. by eapply iteration_stack_reach.
Qed.

Lemma postvisitor_local (fuel : nat) (w : W) :
  postvisitor h2 fn2 kwargs fuel root w = postvisitor h1 fn1 kwargs fuel root w.
Proof.
  unfold postvisitor. rewrite while_loop_local; [done|].
  repeat constructor.
Qed.

End Local.

(** X17: the traversal reads nothing but the nodes that can be reached
    from its root.  Two stores that hold the same objects there, with two
    combining functions that behave alike on these nodes, give the same
    traversal: the same result, exception or unfinished state after any
    number of iterations. *)
Theorem traversal_reads_reachable_nodes {R K W} (h1 h2 : heap)
  (fn1 fn2 : combiner R K W) (kw : K) (root : value) (w : W) (fuel : nat) :
  (∀ a, reachable h1 root (VRef a) → h2 !! a = h1 !! a) →
  (∀ a args w0, reachable h1 root (VRef a) →
     fn2 a args kw w0 = fn1 a args kw w0) →
  postvisitor h2 fn2 kw fuel root w = postvisitor h1 fn1 kw fuel root w.
Proof. intros Hobj Hfn. by apply postvisitor_local. Qed.

(** The evaluation of [3 * 4] is the same before and after [2 + 3 * 4] is
    built from it. *)
Lemma traversal_reads_reachable_nodes_witness :
  (∀ a, reachable arith_heap (VRef 3) (VRef a) →
     take 4 arith_heap !! a = arith_heap !! a)
  ∧ postvisitor (take 4 arith_heap) (evaluate (take 4 arith_heap)) tt 7
                (VRef 3) tt
    = postvisitor arith_heap (evaluate arith_heap) tt 7 (VRef 3) tt.
Proof.
  assert (Hle : ∀ a, reachable arith_heap (VRef 3) (VRef a) → (a ≤ 3)%nat).
  { intros a Ha.
    destruct (ordered_reachable arith_heap 3 (VRef a) eq_refl Ha)
      as (a' & [= <-] & Hle). exact Hle. }
  assert (Hobj : ∀ a, reachable arith_heap (VRef 3) (VRef a) →
                      take 4 arith_heap !! a = arith_heap !! a).
  { intros a Ha%Hle. do 4 (destruct a as [|a]; [reflexivity|]). lia. }
  split; [exact Hobj|].
  apply (traversal_reads_reachable_nodes arith_heap (take 4 arith_heap)
           (evaluate arith_heap) (evaluate (take 4 arith_heap)) tt (VRef 3)
           tt 7 Hobj).
  intros a args w0 Ha%Hle. do 4 (destruct a as [|a]; [reflexivity|]). lia.
Defined.

(** ** A string in the place of the operands *)

Lemma chars_length (s : string) : length (chars s) = String.length s.
Proof. induction s as [|c s IH]; simpl; by rewrite ?IH. Qed.

(** X18: a string is an iterable, so an operator class accepts it in the
    place of the tuple of operands: [Add('ab')] is built, with one operand
    for each character, none of them a node.  The error comes later: a
    traversal of the node raises [AttributeError] without calling the
    combining function, and so does [str] when there are two characters. *)
Theorem string_operands_are_characters {R K W} (float_repr : spec_float -> string)
  (k : klass) (s : string) (h : heap) (fn : combiner R K W) (kw : K) (w : W)
  (fuel d : nat) :
  is_terminal k = false → s ≠ "" →
  ∃ o, call k [VStr s] h = Return (VRef (length h)) (h ++ [o])
       ∧ ob_type o = k
       ∧ length (ob_operands o) = String.length s
       ∧ (∀ c, c ∈ ob_operands o → ∃ x, c = VStr x ∧ String.length x = 1)
       ∧ postvisitor (h ++ [o]) fn kw (2 + fuel) (VRef (length h)) w
         = Raised AttributeError w
       ∧ (String.length s = 2 →
          str float_repr (S d) (h ++ [o]) (length h) = Error AttributeError).
Proof.
  intros Hk Hs. exists (Object k (chars s) None).
  split_and!.
  - by destruct k.
  - done.
  - apply chars_length.
  - simpl. clear Hs. induction s as [|x s IH]; simpl.
    + by intros c ?%not_elem_of_nil.
    + intros c [->|Hc]%elem_of_cons; [by eexists|by apply IH].
  - apply postvisitor_no_node. right.
    destruct s as [|x s]; [done|].
    exists (length h), (Object k (chars (String x s)) None),
           (VStr (String x EmptyString)), (chars s).
    split_and!; [done|apply lookup_new|done|done].
  - intros Hlen. cbn [str]. rewrite lookup_new. cbn [ob_type]. rewrite Hk.
    unfold Operator.__str__. cbn [ob_operands].
    destruct s as [|x [|y [|z s]]]; done.
Qed.

(** [Add('ab')]. *)
Lemma string_operands_are_characters_witness :
  ∃ o, call Add [VStr "ab"] [] = Return (VRef 0) [o]
       ∧ ob_type o = Add
       ∧ length (ob_operands o) = 2
       ∧ (∀ c, c ∈ ob_operands o → ∃ x, c = VStr x ∧ String.length x = 1)
       ∧ postvisitor [o] (pure_fn paths) tt 2 (VRef 0) tt
         = Raised AttributeError tt
       ∧ (String.length "ab" = 2 →
          str (fun _ => "") 1 [o] 0 = Error AttributeError).
Proof.
  apply (string_operands_are_characters (fun _ => "") Add "ab" []
           (pure_fn paths) tt tt 0 0); done.
Defined.

(** ** An integer beyond the digit limit *)

(** X19: [Number] accepts an [int] of any size, but the node of an [int]
    with more decimal digits than the interpreter converts to text has
    neither a [str] nor a [repr]: both raise [ValueError], at every
    recursion depth. *)
Theorem huge_int_has_no_text (float_repr : spec_float -> string)
  (str_repr : string -> string) (z : Z) (h : heap) (d : nat) :
  (int_max_str_digits < int_digits z)%nat →
  call Number [VInt z] h
  = Return (VRef (length h)) (h ++ [Object Number [] (Some (SInt z))])
  ∧ str float_repr (S d) (h ++ [Object Number [] (Some (SInt z))]) (length h)
    = Error ValueError
  ∧ repr float_repr str_repr (S d) (h ++ [Object Number [] (Some (SInt z))])
         (VRef (length h))
    = Error ValueError.
Proof.
  intros Hz. split_and!.
  - by apply call_Number_accepted.
  - cbn [str]. rewrite lookup_new. cbn [ob_type is_terminal].
    unfold Terminal.__str__. cbn [ob_value scalar_str].
    by apply int_str_beyond.
  - cbn [repr]. rewrite lookup_new. cbn [ob_type is_terminal].
    unfold Terminal.__repr__. cbn [ob_value scalar_repr scalar_str].
    by apply int_str_beyond.
Qed.

(** [Number(10 ** 4300)]: the integer has 4301 digits. *)
Lemma huge_int_has_no_text_witness :
  (int_max_str_digits < int_digits (10 ^ 4300))%nat
  ∧ call Number [VInt (10 ^ 4300)] []
    = Return (VRef (length ([] : heap)))
             ([] ++ [Object Number [] (Some (SInt (10 ^ 4300)))])
  ∧ str (fun _ => "") 1 ([] ++ [Object Number [] (Some (SInt (10 ^ 4300)))])
        (length ([] : heap))
    = Error ValueError
  ∧ repr (fun _ => "") (fun s => s) 1
         ([] ++ [Object Number [] (Some (SInt (10 ^ 4300)))])
         (VRef (length ([] : heap)))
    = Error ValueError.
Proof.
  assert (Hz : (int_max_str_digits < int_digits (10 ^ 4300))%nat).
  { apply Nat.ltb_lt. vm_compute. reflexivity. }
  split; [exact Hz|].
  exact (huge_int_has_no_text (fun _ => "") (fun s => s) (10 ^ 4300) [] 0 Hz).
Defined.

